(** * scripts/generate_pdf.py: the markdown block parser and the block renderer

    A shallow embedding of [parse_markdown], of the story loop of [build_pdf]
    and of [main], with the facts of the specification proved about them.

    Python's [str] is a sequence of Unicode code points: a character is its
    code point (an [N]), a string a list of them. *)

From Stdlib Require Import String Ascii NArith ZArith Bool Arith Lia List.
From Stdlib Require Import DecimalString DecimalZ.
Import ListNotations.

Local Open Scope N_scope.

(** ** Characters and strings *)

Definition codepoint := N.
Definition str := list codepoint.

(** An ASCII literal as a Python string. *)
Definition U (s : string) : str := map N_of_ascii (list_ascii_of_string s).

Definition LF : codepoint := 10.
Definition CR : codepoint := 13.
Definition SPACE : codepoint := 32.
Definition HASH : codepoint := 35.       (* # *)
Definition AMP : codepoint := 38.        (* & *)
Definition STAR : codepoint := 42.       (* * *)
Definition HYPHEN : codepoint := 45.     (* - *)
Definition DOT : codepoint := 46.        (* . *)
Definition LT : codepoint := 60.         (* < *)
Definition GT : codepoint := 62.         (* > *)
Definition BACKTICK : codepoint := 96.   (* ` *)
Definition BULLET : codepoint := 8226.   (* U+2022 *)

(** The code points for which [str.isspace] holds.  [str.strip], [str.rstrip]
    and the pattern [\s] of [re] (on [str] patterns) use the same set. *)
Definition whitespace : list codepoint :=
  [9; 10; 11; 12; 13; 28; 29; 30; 31; 32; 133; 160; 5760;
   8192; 8193; 8194; 8195; 8196; 8197; 8198; 8199; 8200; 8201; 8202;
   8232; 8233; 8239; 8287; 12288].

Definition isspace (c : codepoint) : bool := existsb (N.eqb c) whitespace.

(** The line boundaries of [str.splitlines]. *)
Definition linebreaks : list codepoint :=
  [10; 11; 12; 13; 28; 29; 30; 133; 8232; 8233].

Definition islinebreak (c : codepoint) : bool := existsb (N.eqb c) linebreaks.

(** The pattern [\d] on a [str] pattern matches the decimal digits of Unicode
    (category Nd).  They come in runs of ten, one per script; the table lists
    the zero of each run (Unicode 14.0, the database of CPython 3.11). *)
Definition decimal_zeros : list codepoint :=
  [48; 1632; 1776; 1984; 2406; 2534; 2662; 2790; 2918; 3046; 3174; 3302;
   3430; 3558; 3664; 3792; 3872; 4160; 4240; 6112; 6160; 6470; 6608; 6784;
   6800; 6992; 7088; 7232; 7248; 42528; 43216; 43264; 43472; 43504; 43600;
   44016; 65296; 66720; 68912; 69734; 69872; 69942; 70096; 70384; 70736;
   70864; 71248; 71360; 71472; 71904; 72016; 72784; 73040; 73120; 92768;
   92864; 93008; 120782; 120792; 120802; 120812; 120822; 123200; 123632;
   125264; 130032].

Definition isdecimal (c : codepoint) : bool :=
  existsb (fun z => (z <=? c) && (c <? z + 10)) decimal_zeros.

Fixpoint dropwhile (p : codepoint -> bool) (s : str) : str :=
  match s with
  | c :: s' => if p c then dropwhile p s' else s
  | [] => []
  end.

(** [s.lstrip()], [s.rstrip()], [s.strip()]. *)
Definition lstrip (s : str) : str := dropwhile isspace s.
Definition rstrip (s : str) : str := rev (dropwhile isspace (rev s)).
Definition strip (s : str) : str := rstrip (lstrip s).

(** [s.startswith(prefix)]. *)
Fixpoint startswith (s prefix : str) : bool :=
  match prefix, s with
  | [], _ => true
  | p :: prefix', c :: s' => (c =? p) && startswith s' prefix'
  | _ :: _, [] => false
  end.

(** [sep.join(parts)]. *)
Fixpoint join (sep : str) (parts : list str) : str :=
  match parts with
  | [] => []
  | [p] => p
  | p :: parts' => p ++ sep ++ join sep parts'
  end.

(** Truth value of a string: [not s] holds for the empty string only. *)
Definition is_empty (s : str) : bool :=
  match s with [] => true | _ :: _ => false end.

(** [text.splitlines()]: [cur] is the line being read, [after_cr] tells that
    the previous character was a carriage return, whose line feed, if one
    follows, belongs to the same boundary. *)
Fixpoint splitlines_from (cur : str) (after_cr : bool) (s : str) : list str :=
  match s with
  | [] => if is_empty cur then [] else [cur]
  | c :: s' =>
      if after_cr && (c =? LF) then splitlines_from cur false s'
      else if islinebreak c then cur :: splitlines_from [] (c =? CR) s'
      else splitlines_from (cur ++ [c]) false s'
  end.

Definition splitlines (s : str) : list str := splitlines_from [] false s.

(** ** The fragment of [re] the script uses

    Backtracking matching in continuation-passing style: greedy repetition
    tries the longest run first and gives characters back one at a time. *)

Inductive regex : Type :=
| Bol                                                    (* ^ *)
| Eol                                                    (* $ *)
| Cls (p : codepoint -> bool)                            (* one character of a class *)
| Rep (p : codepoint -> bool) (lo : nat) (hi : option nat)  (* greedy p{lo,hi} *)
| Cat (r1 r2 : regex)
| Alt (r1 r2 : regex)                                    (* r1|r2 *)
| Grp (r : regex).                                       (* a capturing group *)

(** A position of the matcher: how many characters were consumed, what is
    left of the subject, and the groups captured so far, in order. *)
Record mstate : Type := MState {
  pos : nat;
  rest : str;
  groups : list str
}.

Definition at_end_or_before_final_newline (s : str) : bool :=
  match s with
  | [] => true
  | [c] => c =? LF
  | _ => false
  end.

Definition bounded (hi : option nat) : bool :=
  match hi with Some 0%nat => true | _ => false end.

Fixpoint rep (p : codepoint -> bool) (lo : nat) (hi : option nat)
    (n : nat) (s : str) (g : list str)
    (k : mstate -> option mstate) {struct s} : option mstate :=
  let stop := match lo with
              | 0%nat => k (MState n s g)
              | S _ => None
              end in
  match s with
  | c :: s' =>
      if p c && negb (bounded hi) then
        match rep p (Nat.pred lo) (option_map Nat.pred hi) (S n) s' g k with
        | Some m => Some m
        | None => stop
        end
      else stop
  | [] => stop
  end.

Fixpoint exec (r : regex) (st : mstate) (k : mstate -> option mstate)
    {struct r} : option mstate :=
  match r with
  | Bol => match pos st with 0%nat => k st | S _ => None end
  | Eol => if at_end_or_before_final_newline (rest st) then k st else None
  | Cls p =>
      match rest st with
      | c :: s' => if p c then k (MState (S (pos st)) s' (groups st)) else None
      | [] => None
      end
  | Rep p lo hi => rep p lo hi (pos st) (rest st) (groups st) k
  | Cat r1 r2 => exec r1 st (fun st' => exec r2 st' k)
  | Alt r1 r2 =>
      match exec r1 st k with
      | Some m => Some m
      | None => exec r2 st k
      end
  | Grp r1 =>
      exec r1 st (fun st' =>
        k (MState (pos st') (rest st')
             (groups st' ++ [firstn (pos st' - pos st) (rest st)])))
  end.

(** [re.match(r, s)]: a match anchored at the start of [s]. *)
Definition re_match (r : regex) (s : str) : option mstate :=
  exec r (MState 0 s []) Some.

Definition matches (r : regex) (s : str) : bool :=
  match re_match r s with Some _ => true | None => false end.

(** [m.group(i)], for [i >= 1]. *)
Definition group (i : nat) (m : mstate) : str := nth (Nat.pred i) (groups m) [].

(** [re.sub(r, "", s)] for a pattern that matches no empty string: scanning
    from the left, the characters of each match are dropped and a character
    at which no match starts is kept. [start] is the position of the scan
    in the subject (at position 0 alone can [^] match) and [skip] the number
    of characters of the current match still to drop. *)
Fixpoint sub_empty_from (r : regex) (start skip : nat) (s : str) {struct s}
    : str :=
  match s with
  | [] => []
  | c :: s' =>
      match skip with
      | S skip' => sub_empty_from r (S start) skip' s'
      | O =>
          match exec r (MState start s []) Some with
          | Some m =>
              match (pos m - start)%nat with
              | S skip' => sub_empty_from r (S start) skip' s'
              | O => c :: sub_empty_from r (S start) 0 s'
              end
          | None => c :: sub_empty_from r (S start) 0 s'
          end
      end
  end.

Definition re_sub_empty (r : regex) (s : str) : str := sub_empty_from r 0 0 s.

Definition lit (c : codepoint) : codepoint -> bool := N.eqb c.
Definition oneof (cs : list codepoint) : codepoint -> bool :=
  fun c => existsb (N.eqb c) cs.
Definition anychar : codepoint -> bool := fun c => negb (c =? LF).  (* . *)

Definition plus (p : codepoint -> bool) : regex := Rep p 1 None.
Definition star (p : codepoint -> bool) : regex := Rep p 0 None.

Declare Scope regex_scope.
Delimit Scope regex_scope with re.
Infix ";;" := Cat (at level 61, right associativity) : regex_scope.

(** The pattern "^---+$". *)
Definition re_separator : regex :=
  (Bol ;; Cls (lit HYPHEN) ;; Cls (lit HYPHEN) ;; plus (lit HYPHEN) ;; Eol)%re.

(** The heading pattern: "^(#{1,6})\s+", then the group ".*", then "$". *)
Definition re_heading : regex :=
  (Bol ;; Grp (Rep (lit HASH) 1 (Some 6%nat)) ;; plus isspace ;;
   Grp (star anychar) ;; Eol)%re.

(** The pattern "^(#{1,6})\s+". *)
Definition re_heading_start : regex :=
  (Bol ;; Grp (Rep (lit HASH) 1 (Some 6%nat)) ;; plus isspace)%re.

(** The pattern "^\s*(?:[-*]|\d+\.)\s+". *)
Definition re_item : regex :=
  (Bol ;; star isspace ;;
   Alt (Cls (oneof [HYPHEN; STAR])) (plus isdecimal ;; Cls (lit DOT)) ;;
   plus isspace)%re.

(** ** Blocks *)

Inductive block : Type :=
| Code (content : str)                    (* ("code", content) *)
| Separator                               (* ("separator", "") *)
| Heading (level : nat) (text : str)      (* ("heading", level, text) *)
| List (items : list str)                 (* ("list", items) *)
| Para (text : str).                      (* ("para", text) *)

(** The tag in the first component of the tuple. *)
Definition kind (b : block) : string :=
  match b with
  | Code _ => "code"
  | Separator => "separator"
  | Heading _ _ => "heading"
  | List _ => "list"
  | Para _ => "para"
  end%string.

Definition fence : str := [BACKTICK; BACKTICK; BACKTICK].

Definition is_fence (line : str) : bool := startswith (strip line) fence.

(** The tests that end a paragraph, in the order of the source. *)
Definition para_break (next_line : str) : bool :=
  is_empty (strip next_line)
  || startswith (strip next_line) fence
  || matches re_heading_start next_line
  || matches re_item next_line
  || matches re_separator (strip next_line).

Definition item_text (line : str) : str := rstrip (re_sub_empty re_item line).

(** ** [parse_markdown]

    [scan] is the [while i < len(lines)] loop: [lines] is [lines[i:]], and
    [in_code], [code_buf] and [blocks] are the variables of the source. The
    inner loops are the two local fixpoints; the list loop is entered with its
    first test, which the enclosing [if] has just made, already taken. *)
Fixpoint scan (lines : list str) (in_code : bool) (code_buf : list str)
    (blocks : list block) {struct lines} : list block :=
  match lines with
  | [] => blocks
  | line :: lines' =>
      if startswith (strip line) fence then
        if in_code then
          scan lines' false [] (blocks ++ [Code (rstrip (join [LF] code_buf))])
        else
          scan lines' true code_buf blocks
      else if in_code then
        scan lines' in_code (code_buf ++ [line]) blocks
      else if is_empty (strip line) then
        scan lines' in_code code_buf blocks
      else if matches re_separator (strip line) then
        scan lines' in_code code_buf (blocks ++ [Separator])
      else
        match re_match re_heading line with
        | Some heading =>
            let level := length (group 1 heading) in
            let text := strip (group 2 heading) in
            scan lines' in_code code_buf (blocks ++ [Heading level text])
        | None =>
            if matches re_item line then
              (fix list_loop (ls : list str) (items : list str) {struct ls}
                 : list block :=
                 match ls with
                 | l :: ls' =>
                     if matches re_item l
                     then list_loop ls' (items ++ [item_text l])
                     else scan ls in_code code_buf (blocks ++ [List items])
                 | [] => scan ls in_code code_buf (blocks ++ [List items])
                 end) lines' [item_text line]
            else
              (fix para_loop (ls : list str) (para_lines : list str) {struct ls}
                 : list block :=
                 match ls with
                 | next_line :: ls' =>
                     if para_break next_line
                     then scan ls in_code code_buf
                            (blocks ++ [Para (strip (join [SPACE] para_lines))])
                     else para_loop ls' (para_lines ++ [strip next_line])
                 | [] => scan ls in_code code_buf
                           (blocks ++ [Para (strip (join [SPACE] para_lines))])
                 end) lines' [strip line]
        end
  end.

Definition parse_lines (lines : list str) : list block := scan lines false [] [].

Definition parse_markdown (md_text : str) : list block :=
  parse_lines (splitlines md_text).

(** ** The story of [build_pdf] *)

(** [str.replace(old, new)] for a one-character [old]. *)
Definition replace_char (old : codepoint) (new : str) (s : str) : str :=
  flat_map (fun c => if c =? old then new else [c]) s.

(** [xml.sax.saxutils.escape(data)]: the ampersand first, then [>], then [<]. *)
Definition escape (data : str) : str :=
  replace_char LT (U "&lt;")
    (replace_char GT (U "&gt;") (replace_char AMP (U "&amp;") data)).

Local Open Scope string_scope.

Definition FONT_SANS : string := "LiberationSans".
Definition FONT_SANS_BOLD : string := "LiberationSans-Bold".
Definition FONT_MONO : string := "LiberationMono".

(** The attributes the script gives a [ParagraphStyle]; [None] where it
    leaves one to the parent style or to the default. *)
Record ParagraphStyle : Type := {
  style_name : string;
  parent : option string;
  fontName : string;
  fontSize : Z;
  leading : Z;
  leftIndent : option Z;
  rightIndent : option Z;
  spaceBefore : option Z;
  spaceAfter : Z
}.

Definition style_body : ParagraphStyle :=
  {| style_name := "BodyRU"; parent := Some "Normal"; fontName := FONT_SANS;
     fontSize := 11; leading := 15; leftIndent := None; rightIndent := None;
     spaceBefore := None; spaceAfter := 6 |}.

Definition style_h1 : ParagraphStyle :=
  {| style_name := "H1RU"; parent := Some "Heading1"; fontName := FONT_SANS_BOLD;
     fontSize := 20; leading := 24; leftIndent := None; rightIndent := None;
     spaceBefore := Some 10%Z; spaceAfter := 10 |}.

Definition style_h2 : ParagraphStyle :=
  {| style_name := "H2RU"; parent := Some "Heading2"; fontName := FONT_SANS_BOLD;
     fontSize := 16; leading := 20; leftIndent := None; rightIndent := None;
     spaceBefore := Some 10%Z; spaceAfter := 8 |}.

Definition style_h3 : ParagraphStyle :=
  {| style_name := "H3RU"; parent := Some "Heading3"; fontName := FONT_SANS_BOLD;
     fontSize := 13; leading := 17; leftIndent := None; rightIndent := None;
     spaceBefore := Some 8%Z; spaceAfter := 6 |}.

Definition style_code : ParagraphStyle :=
  {| style_name := "CodeRU"; parent := None; fontName := FONT_MONO;
     fontSize := 9; leading := 12; leftIndent := Some 8%Z; rightIndent := Some 8%Z;
     spaceBefore := Some 4%Z; spaceAfter := 8 |}.

Local Close Scope string_scope.

(** What the story holds: the flowables of reportlab the script builds. *)
Inductive flowable : Type :=
| Paragraph (text : str) (style : ParagraphStyle)
| Preformatted (text : str) (style : ParagraphStyle)
| Spacer (width height : Z).

(** The text of a list item: the bullet, a space, the escaped item without
    its backticks. *)
Definition bullet_text (item : str) : str :=
  [BULLET; SPACE] ++ replace_char BACKTICK [] (escape item).

(** One turn of [for block in blocks]: the story after the block. *)
Definition render_block (story : list flowable) (b : block) : list flowable :=
  match b with
  | Heading level text =>
      let pstyle := if (level =? 1)%nat then style_h1
                    else if (level =? 2)%nat then style_h2 else style_h3 in
      story ++ [Paragraph (escape text) pstyle]
  | Para text =>
      let txt := replace_char BACKTICK [] (escape text) in
      story ++ [Paragraph txt style_body]
  | List items =>
      fold_left (fun story item => story ++ [Paragraph (bullet_text item) style_body])
        items story
      ++ [Spacer 1 2]
  | Code code =>
      if is_empty code then story else story ++ [Preformatted code style_code]
  | Separator => story ++ [Spacer 1 8]
  end.

Definition build_story (blocks : list block) : list flowable :=
  fold_left render_block blocks [].

(** ** [build_pdf] and [main]

    What lies outside the script (the file system, pathlib, reportlab's font
    registry and document builder, the standard output) is an interface.
    Every operation that touches the outside can raise, and returns an
    [outcome]. So do the existence test (pathlib lets through every
    [OSError] other than the four that mean a missing path, so a name too
    long raises) and [print] (it raises for a line that the encoding of the
    standard output cannot write). *)

Inductive exn : Type :=
| TTFError
| FileNotFoundError
| IsADirectoryError
| UnicodeDecodeError
| UnicodeEncodeError
| OSError.

Inductive outcome (A : Type) : Type :=
| Ok (a : A)
| Raise (e : exn).
Arguments Ok {A} a.
Arguments Raise {A} e.

(** A computation over the world [W]: its outcome and the world it leaves. *)
Definition M (W A : Type) : Type := W -> outcome A * W.

Definition ret {W A : Type} (a : A) : M W A := fun w => (Ok a, w).

Definition bind {W A B : Type} (c : M W A) (k : A -> M W B) : M W B :=
  fun w => match c w with
           | (Ok a, w') => k a w'
           | (Raise e, w') => (Raise e, w')
           end.

Notation "'let*' x ':=' c 'in' k" := (bind c (fun x => k))
  (at level 10, x name, c at level 100, k at level 200).
Notation "c >> k" := (bind c (fun _ => k))
  (at level 62, right associativity).

Class Platform (W : Type) : Type := {
  path : Type;                                   (* pathlib.Path *)
  Path : str -> path;
  path_str : path -> str;                        (* str(p), as an f-string shows it *)
  path_parent : path -> path;                    (* p.parent *)
  path_exists : path -> M W bool;                (* p.exists() *)
  mkdir_parents : path -> M W unit;              (* p.mkdir(parents=True, exist_ok=True) *)
  read_text : path -> M W str;                   (* p.read_text(encoding="utf-8") *)
  registerFont : string -> string -> M W unit;   (* pdfmetrics.registerFont(TTFont(name, file)) *)
  doc_build : path -> list flowable -> M W unit; (* SimpleDocTemplate(str(p), ...).build(story, ...) *)
  print : str -> M W unit                        (* print(line) *)
}.

Section Script.
Context {W : Type} {P : Platform W}.

Definition register_fonts : M W unit :=
  registerFont FONT_SANS "/usr/share/fonts/liberation/LiberationSans-Regular.ttf" >>
  registerFont FONT_SANS_BOLD "/usr/share/fonts/liberation/LiberationSans-Bold.ttf" >>
  registerFont FONT_MONO "/usr/share/fonts/liberation/LiberationMono-Regular.ttf".

Definition build_pdf (input_path output_path : path) : M W unit :=
  register_fonts >>
  let* md_text := read_text input_path in
  let blocks := parse_markdown md_text in
  let story := build_story blocks in
  doc_build output_path story.

Definition usage_line : str := U "Usage: generate_pdf.py <input.md> <output.pdf>".

(** [main], on [sys.argv]. *)
Definition main (argv : list str) : M W Z :=
  if negb (length argv =? 3)%nat then
    print usage_line >>
    ret 2%Z
  else
    let input_path := Path (nth 1 argv []) in
    let output_path := Path (nth 2 argv []) in
    let* found := path_exists input_path in
    if negb found then
      print (U "Input not found: " ++ path_str input_path) >>
      ret 1%Z
    else
      mkdir_parents (path_parent output_path) >>
      build_pdf input_path output_path >>
      print (U "Generated: " ++ path_str output_path) >>
      ret 0%Z.

(** What [main] does between the existence test and the confirmation line. *)
Definition processing (argv : list str) : M W unit :=
  mkdir_parents (path_parent (Path (nth 2 argv []))) >>
  build_pdf (Path (nth 1 argv [])) (Path (nth 2 argv [])).

End Script.

(** ** Auxiliary definitions of the proofs *)

(** The length of the longest run [rep] can take. *)
Fixpoint run_length (p : codepoint -> bool) (hi : option nat) (s : str) : nat :=
  match s with
  | c :: s' =>
      if p c && negb (bounded hi)
      then S (run_length p (option_map Nat.pred hi) s')
      else O
  | [] => O
  end.

(** What follows the list marker at the head of [s]: a hyphen or a star, or
    decimal digits and a dot. *)
Definition marker_end (s : str) : option str :=
  match s with
  | c :: s' =>
      if oneof [HYPHEN; STAR] c then Some s'
      else if isdecimal c then
        match dropwhile isdecimal s' with
        | d :: s'' => if d =? DOT then Some s'' else None
        | [] => None
        end
      else None
  | [] => None
  end.

(** The text of a list-item line after its indentation, its marker and the
    white space that follows the marker; [None] when the line is no item. *)
Definition item_body (line : str) : option str :=
  match marker_end (lstrip line) with
  | Some (w :: s) => if isspace w then Some (lstrip s) else None
  | _ => None
  end.

(** The number of leading hashes the heading pattern takes: at most six. *)
Definition hashes (line : str) : nat := run_length (lit HASH) (Some 6%nat) line.

(** One to six hashes, then white space. *)
Definition heading_start (line : str) : bool :=
  (1 <=? hashes line)%nat &&
  match skipn (hashes line) line with
  | w :: _ => isspace w
  | [] => false
  end.

(** No line feed in [s]: so are the lines [splitlines] returns. *)
Definition no_newline (s : str) : bool := forallb anychar s.

(** An inner loop of [scan] as a function of its own: it consumes the lines
    up to the first at which [stop] holds, appends [f line] for each line it
    consumes, and returns its list with the lines that remain. *)
Fixpoint take_run (stop : str -> bool) (f : str -> str)
    (ls : list str) (acc : list str) : list str * list str :=
  match ls with
  | l :: ls' => if stop l then (acc, ls) else take_run stop f ls' (acc ++ [f l])
  | [] => (acc, [])
  end.

Definition is_item (line : str) : bool := matches re_item line.
Definition not_item (line : str) : bool := negb (matches re_item line).

Definition list_run : list str -> list str -> list str * list str :=
  take_run not_item item_text.
Definition para_run : list str -> list str -> list str * list str :=
  take_run para_break strip.

(** The line is one the main loop hands to the paragraph rule: no other
    rule takes it. *)
Definition is_para_line (line : str) : bool :=
  negb (is_fence line)
  && negb (is_empty (strip line))
  && negb (matches re_separator (strip line))
  && negb (matches re_heading line)
  && negb (matches re_item line).

(** [in_code] and [code_buf] after one more line. *)
Definition code_step (st : bool * list str) (line : str) : bool * list str :=
  let '(in_code, code_buf) := st in
  if is_fence line then
    if in_code then (false, []) else (true, code_buf)
  else if in_code then (true, code_buf ++ [line])
  else st.

Definition code_state (lines : list str) (st : bool * list str)
    : bool * list str :=
  fold_left code_step lines st.

(** The value of [in_code] once the lines [pre] of a document are read. *)
Definition in_code_after (pre : list str) : bool :=
  fst (code_state pre (false, [])).

(** The first line of [post], if there is one, satisfies [stop]. *)
Definition starts_with (stop : str -> bool) (post : list str) : Prop :=
  match post with
  | [] => True
  | t :: _ => stop t = true
  end.

(** Two neighbouring lines the loops keep apart: an item is not followed by
    an item, and a paragraph line is followed by a line that ends the
    paragraph. *)
Definition apart (l t : str) : Prop :=
  (is_item l = true -> is_item t = false) /\
  (is_para_line l = true -> para_break t = true).

(** [tail] can be parsed on its own after [pre]. *)
Definition glue (pre tail : list str) : Prop :=
  match pre, tail with
  | _ :: _, t :: _ => apart (last pre []) t
  | _, _ => True
  end.

(** Two lines that are the same, or else two fence delimiters. *)
Definition same_but_fences (a b : str) : Prop :=
  a = b \/ (is_fence a = true /\ is_fence b = true).

(** A document given by its lines. *)
Definition unlines (ls : list string) : str := join [LF] (map U ls).

(** No line boundary in [s]. *)
Definition no_linebreak (s : str) : bool :=
  forallb (fun c => negb (islinebreak c)) s.

(** A string that is not empty and neither begins nor ends with white space. *)
Definition tidy (s : str) : Prop :=
  (exists c r, s = c :: r /\ isspace c = false) /\
  (exists t c, s = t ++ [c] /\ isspace c = false).

(** What the data model asks of a block. *)
Definition block_ok (b : block) : Prop :=
  In (kind b) ["heading"; "para"; "list"; "code"; "separator"]%string /\
  match b with
  | Heading level _ => (1 <= level <= 6)%nat
  | List items => items <> []
  | Code content => forall t c, content = t ++ [c] -> isspace c = false
  | _ => True
  end.

(** The text of a paragraph or of a list item as the specification words
    it, character by character: the three characters of the markup escaped,
    the backtick dropped. *)
Definition markup_char (c : codepoint) : str :=
  if c =? AMP then U "&amp;"
  else if c =? LT then U "&lt;"
  else if c =? GT then U "&gt;"
  else if c =? BACKTICK then []
  else [c].

Definition markup (s : str) : str := flat_map markup_char s.

(** *** A small platform

    Files hold a text, or bytes that are no UTF-8 text; paths are their
    strings. Reading a directory or a missing file raises, as does loading
    a font that is not there. The existence test raises for a path that
    Linux refuses as too long; printing raises for a line that holds a
    surrogate code point, as a strict UTF-8 standard output does. *)
Inductive node : Type :=
| File (text : option str)
| Dir.

Record world : Type := World {
  fs : list (str * node);
  stdout : list str
}.

Fixpoint lookup (p : str) (files : list (str * node)) : option node :=
  match files with
  | (q, n) :: files' => if list_eq_dec N.eq_dec p q then Some n else lookup p files'
  | [] => None
  end.

(** The text before the last slash, or "." *)
Fixpoint dirname_from (seen : str) (dir : option str) (s : str) : str :=
  match s with
  | c :: s' =>
      if c =? 47 then dirname_from (seen ++ [c]) (Some seen) s'
      else dirname_from (seen ++ [c]) dir s'
  | [] => match dir with Some d => d | None => [DOT] end
  end.

(** A surrogate code point, and the bytes of a character in a file name: its
    UTF-8 bytes, and one byte for a surrogate, which stands for a byte of a
    name that is no UTF-8. *)
Definition is_surrogate (c : codepoint) : bool := (55296 <=? c) && (c <=? 57343).

Definition name_bytes (c : codepoint) : N :=
  if c <? 128 then 1
  else if c <? 2048 then 2
  else if is_surrogate c then 1
  else if c <? 65536 then 3
  else 4.

(** A path Linux refuses as too long: 4096 bytes or more, or a name between
    slashes of more than 255 bytes. *)
Fixpoint name_too_long_from (seen : N) (s : str) : bool :=
  match s with
  | c :: s' =>
      if c =? 47 then (255 <? seen) || name_too_long_from 0 s'
      else name_too_long_from (seen + name_bytes c) s'
  | [] => 255 <? seen
  end.

Definition path_too_long (p : str) : bool :=
  (4095 <? fold_left (fun n c => n + name_bytes c) p 0)
  || name_too_long_from 0 p.

#[export] Instance small_platform : Platform world := {
  path := str;
  Path := fun s => s;
  path_str := fun p => p;
  path_parent := dirname_from [] None;
  path_exists := fun p w =>
    if path_too_long p then (Raise OSError, w)
    else (Ok (match lookup p (fs w) with Some _ => true | None => false end), w);
  mkdir_parents := fun p w =>
    match lookup p (fs w) with
    | Some (File _) => (Raise OSError, w)
    | Some Dir => (Ok tt, w)
    | None => (Ok tt, World ((p, Dir) :: fs w) (stdout w))
    end;
  read_text := fun p w =>
    match lookup p (fs w) with
    | Some (File (Some text)) => (Ok text, w)
    | Some (File None) => (Raise UnicodeDecodeError, w)
    | Some Dir => (Raise IsADirectoryError, w)
    | None => (Raise FileNotFoundError, w)
    end;
  registerFont := fun _ file w =>
    match lookup (U file) (fs w) with
    | Some (File _) => (Ok tt, w)
    | _ => (Raise TTFError, w)
    end;
  doc_build := fun p _ w => (Ok tt, World ((p, File None) :: fs w) (stdout w));
  print := fun line w =>
    if existsb is_surrogate line then (Raise UnicodeEncodeError, w)
    else (Ok tt, World (fs w) (stdout w ++ [line]))
}.

(** The three fonts of the script, installed. *)
Definition fonts_installed : list (str * node) :=
  [(U "/usr/share/fonts/liberation/LiberationSans-Regular.ttf", File None);
   (U "/usr/share/fonts/liberation/LiberationSans-Bold.ttf", File None);
   (U "/usr/share/fonts/liberation/LiberationMono-Regular.ttf", File None)].

(** The document of the round trip. *)
Definition sample_document : str :=
  unlines ["# Title"; ""; "Some `text` & more."; ""; "- one"; "- two";
           "- three"; ""; "```"; "x = 1"; "```"; ""; "---"]%string.

(** The arguments and the world of a run that succeeds. *)
Definition sample_argv : list str :=
  [U "generate_pdf.py"; U "docs/guide.md"; U "out/guide.pdf"].

Definition sample_world : world :=
  World ((U "docs/guide.md", File (Some sample_document)) :: fonts_installed) [].

(** A line the main loop skips outside a fence: nothing but white space. *)
Definition is_blank (line : str) : bool := is_empty (strip line).

Definition is_code (b : block) : bool :=
  match b with Code _ => true | _ => false end.

(** The number of fence lines of a document, of code blocks of a result. *)
Definition fence_lines (ls : list str) : nat := length (filter is_fence ls).
Definition code_blocks (blocks : list block) : nat :=
  length (filter is_code blocks).

(** A string that [strip] leaves as it is. *)
Definition trimmed (s : str) : Prop := strip s = s.

(** The texts of a block, heading, paragraph or list, are trimmed, and the
    text of a paragraph is not empty. *)
Definition texts_trimmed (b : block) : Prop :=
  match b with
  | Para text => tidy text
  | Heading _ text => trimmed text
  | List items => Forall trimmed items
  | Code _ | Separator => True
  end.

(** The texts of a block, heading, paragraph or list, hold no line
    boundary. *)
Definition texts_single_line (b : block) : Prop :=
  match b with
  | Para text | Heading _ text => no_linebreak text = true
  | List items => Forall (fun item => no_linebreak item = true) items
  | Code _ | Separator => True
  end.

(** [escape], character by character. *)
Definition escape_char (c : codepoint) : str :=
  if c =? AMP then U "&amp;"
  else if c =? LT then U "&lt;"
  else if c =? GT then U "&gt;"
  else [c].

(** The texts of the [Paragraph] elements of a story, which reportlab reads
    as markup. *)
Definition paragraph_texts (story : list flowable) : list str :=
  flat_map (fun f => match f with Paragraph text _ => [text] | _ => [] end) story.

(** *** [page_number]

    The operations [page_number] performs on the canvas, in order. The two
    coordinates of [drawRightString] are kept as the multiples of the unit
    [mm] the script writes. *)
Inductive canvas_op : Type :=
| SaveState
| SetFont (psfontname : string) (size : Z)
| DrawRightString (x_mm y_mm : Z) (text : str)
| RestoreState.

(** [str(n)] for an [int]: the decimal digits, after a minus sign for a
    negative number. *)
Definition str_of_int (n : Z) : str := U (NilZero.string_of_int (Z.to_int n)).

(** The caption of the footer, a Russian word of eight letters. *)
Definition page_caption : str := [1057; 1090; 1088; 1072; 1085; 1080; 1094; 1072].

(** [page_number(canvas, doc)], on [doc.page]. *)
Definition page_number (page : Z) : list canvas_op :=
  [SaveState;
   SetFont FONT_SANS 9;
   DrawRightString 200 10 (page_caption ++ [SPACE] ++ str_of_int page);
   RestoreState].

(** *** The standard output of a platform

    [out] reads the lines printed so far: a [print] that returns has
    appended its line, a [print] that raises has written nothing, and no
    other operation of the platform prints. *)
Record StdoutOnly {W : Type} (P : Platform W) (out : W -> list str) : Prop := {
  out_print : forall line w w',
    print line w = (Ok tt, w') -> out w' = out w ++ [line];
  out_print_raise : forall line w e w',
    print line w = (Raise e, w') -> out w' = out w;
  out_exists : forall p w, out (snd (path_exists p w)) = out w;
  out_mkdir : forall p w, out (snd (mkdir_parents p w)) = out w;
  out_read : forall p w, out (snd (read_text p w)) = out w;
  out_font : forall name file w, out (snd (registerFont name file w)) = out w;
  out_build : forall p story w, out (snd (doc_build p story w)) = out w
}.

(** A computation that prints nothing. *)
Definition silent {W A : Type} (out : W -> list str) (c : M W A) : Prop :=
  forall w, out (snd (c w)) = out w.

(** The line [main] prints with the exit code [code]. *)
Definition line_of_exit {W : Type} {P : Platform W} (argv : list str) (code : Z)
    : str :=
  if (code =? 2)%Z then usage_line
  else if (code =? 1)%Z then
    U "Input not found: " ++ path_str (Path (nth 1 argv []))
  else U "Generated: " ++ path_str (Path (nth 2 argv [])).

(** A list marker: a hyphen, a star, or decimal digits and a dot. *)
Inductive list_marker : str -> Prop :=
| marker_hyphen : list_marker [HYPHEN]
| marker_star : list_marker [STAR]
| marker_number digits :
    digits <> [] -> forallb isdecimal digits = true ->
    list_marker (digits ++ [DOT]).

(** ** The matcher: greedy repetition *)

Lemma run_length_le p hi s : (run_length p hi s <= length s)%nat.
Proof.
  revert hi; induction s as [|c s IH]; intros hi; simpl; [lia|].
  destruct (p c && negb (bounded hi)); [|lia].
  specialize (IH (option_map Nat.pred hi)); lia.
Qed.

Lemma skipn_run_unbounded p s :
  skipn (run_length p None s) s = dropwhile p s.
Proof.
  induction s as [|c s IH]; simpl; [reflexivity|].
  rewrite andb_true_r. destruct (p c); simpl; auto.
Qed.

(** A continuation that refuses every position standing before a character
    of the class leaves [rep] one choice: the longest run. *)
Lemma rep_greedy p k :
  (forall n c s g, p c = true -> k (MState n (c :: s) g) = None) ->
  forall s lo hi n g,
    rep p lo hi n s g k =
      if (lo <=? run_length p hi s)%nat
      then k (MState (n + run_length p hi s) (skipn (run_length p hi s) s) g)
      else None.
Proof.
  intros Hk. induction s as [|c s IH]; intros lo hi n g.
  - simpl. destruct lo; simpl; [rewrite Nat.add_0_r|]; reflexivity.
  - simpl. destruct (p c) eqn:Hp; simpl.
    + destruct (bounded hi); simpl.
      * destruct lo; simpl; [rewrite Nat.add_0_r|]; reflexivity.
      * rewrite IH. rewrite <- Nat.add_succ_comm.
        destruct lo as [|lo]; simpl.
        -- destruct (k _); [reflexivity|]. apply Hk, Hp.
        -- destruct (lo <=? _)%nat; [|reflexivity].
           destruct (k _); reflexivity.
    + destruct lo; simpl; [rewrite Nat.add_0_r|]; reflexivity.
Qed.

(** The longest run is tried first. *)
Lemma rep_first p k s lo hi n g m :
  (lo <= run_length p hi s)%nat ->
  k (MState (n + run_length p hi s) (skipn (run_length p hi s) s) g) = Some m ->
  rep p lo hi n s g k = Some m.
Proof.
  revert lo hi n. induction s as [|c s IH]; intros lo hi n Hlo Hm.
  - simpl in *. assert (lo = O) by lia; subst. now rewrite Nat.add_0_r in Hm.
  - simpl in *. destruct (p c && negb (bounded hi)).
    + rewrite (IH (Nat.pred lo) (option_map Nat.pred hi) (S n)); auto; [lia|].
      now rewrite <- Nat.add_succ_comm in Hm.
    + assert (lo = O) by lia; subst. now rewrite Nat.add_0_r in Hm.
Qed.

(** Whatever [rep] answers, the continuation answered it after some run. *)
Lemma rep_inv p k s lo hi n g m :
  rep p lo hi n s g k = Some m ->
  exists j, (lo <= j <= run_length p hi s)%nat /\
            k (MState (n + j) (skipn j s) g) = Some m.
Proof.
  revert lo hi n. induction s as [|c s IH]; intros lo hi n H.
  - simpl in *. destruct lo; [|discriminate].
    exists O. rewrite Nat.add_0_r. auto.
  - simpl in *. destruct (p c && negb (bounded hi)).
    + destruct (rep p (Nat.pred lo) (option_map Nat.pred hi) (S n) s g k) eqn:E.
      * inversion H; subst. apply IH in E as (j & Hj & Hk).
        exists (S j). rewrite <- Nat.add_succ_comm. split; [lia|exact Hk].
      * destruct lo; [|discriminate].
        exists O. rewrite Nat.add_0_r. split; [lia|exact H].
    + destruct lo; [|discriminate].
      exists O. rewrite Nat.add_0_r. auto.
Qed.

Lemma rep_short p k s lo hi n g :
  (run_length p hi s < lo)%nat -> rep p lo hi n s g k = None.
Proof.
  intros H. destruct (rep p lo hi n s g k) eqn:E; [|reflexivity].
  apply rep_inv in E as (j & Hj & _). lia.
Qed.

(** ** Character classes *)

Lemma isspace_in c : isspace c = true -> In c whitespace.
Proof.
  unfold isspace. intros H. apply existsb_exists in H as (x & Hin & Heq).
  apply N.eqb_eq in Heq. now subst.
Qed.

Ltac space_cases H :=
  apply isspace_in in H; unfold whitespace in H; simpl in H;
  repeat (destruct H as [H|H]; [subst; try reflexivity; try discriminate|]);
  try contradiction.

Lemma space_not_decimal c : isspace c = true -> isdecimal c = false.
Proof. intros H. space_cases H. Qed.

Lemma space_not_bullet c : isspace c = true -> oneof [HYPHEN; STAR] c = false.
Proof. intros H. space_cases H. Qed.

Lemma space_not_hash c : isspace c = true -> lit HASH c = false.
Proof. intros H. space_cases H. Qed.

Lemma decimal_range c :
  isdecimal c = true -> 48 <= c /\ (c <= 57 \/ 1632 <= c).
Proof.
  unfold isdecimal. intros H. apply existsb_exists in H as (z & Hin & Hz).
  apply andb_prop in Hz as [H1 H2].
  apply N.leb_le in H1. apply N.ltb_lt in H2.
  assert (Hz : z = 48 \/ 1632 <= z).
  { clear H1 H2. unfold decimal_zeros in Hin. simpl in Hin.
    repeat (destruct Hin as [Hin|Hin]; [subst; first [now left | right; lia]|]).
    contradiction. }
  lia.
Qed.

Lemma decimal_not_dot c : isdecimal c = true -> lit DOT c = false.
Proof.
  intros H. apply decimal_range in H. unfold lit, DOT.
  apply N.eqb_neq. lia.
Qed.

Lemma bullet_not_decimal c : oneof [HYPHEN; STAR] c = true -> isdecimal c = false.
Proof.
  unfold oneof, HYPHEN, STAR. simpl. rewrite orb_false_r. intros H.
  apply orb_prop in H as [H|H]; apply N.eqb_eq in H; subst; reflexivity.
Qed.

(** ** The patterns of the script *)

Lemma plus_space_end n s g :
  rep isspace 1 None n s g Some =
    match s with
    | w :: _ =>
        if isspace w
        then Some (MState (n + run_length isspace None s) (lstrip s) g)
        else None
    | [] => None
    end.
Proof.
  destruct s as [|w s']; [reflexivity|].
  destruct (isspace w) eqn:Hw.
  - apply rep_first.
    + simpl. rewrite Hw. simpl. lia.
    + now rewrite skipn_run_unbounded.
  - apply rep_short. simpl. rewrite Hw. simpl. lia.
Qed.

(** The item pattern matches exactly the lines [item_body] accepts, and
    leaves what [item_body] returns. *)
Lemma re_item_spec line :
  match re_match re_item line with
  | Some m => item_body line = Some (rest m) /\ (0 < pos m)%nat
  | None => item_body line = None
  end.
Proof.
  unfold re_match, re_item, plus, star, item_body. cbn [exec pos rest groups].
  rewrite rep_greedy.
  2:{ intros n c s g Hc. cbn [exec pos rest groups].
      rewrite (space_not_bullet c Hc).
      apply rep_short. simpl. rewrite (space_not_decimal c Hc). simpl. lia. }
  cbn [Nat.leb]. rewrite skipn_run_unbounded. fold (lstrip line).
  cbn [exec pos rest groups].
  destruct (lstrip line) as [|c s1]; [reflexivity|].
  cbn [marker_end].
  destruct (oneof [HYPHEN; STAR] c) eqn:Hb.
  - rewrite plus_space_end.
    destruct s1 as [|w s2].
    + rewrite rep_short; [reflexivity|].
      simpl. rewrite (bullet_not_decimal c Hb). simpl. lia.
    + destruct (isspace w) eqn:Hw.
      * split; [|cbn [pos]; lia].
        cbn [rest]. unfold lstrip. simpl. now rewrite Hw.
      * rewrite rep_short; [reflexivity|].
        simpl. rewrite (bullet_not_decimal c Hb). simpl. lia.
  - rewrite rep_greedy.
    2:{ intros n d s g Hd. cbn [exec pos rest groups].
        now rewrite (decimal_not_dot d Hd). }
    rewrite skipn_run_unbounded.
    destruct (isdecimal c) eqn:Hd.
    + replace (1 <=? run_length isdecimal None (c :: s1))%nat with true
        by (simpl; now rewrite Hd).
      cbn [dropwhile]. rewrite Hd. cbn [exec pos rest groups].
      destruct (dropwhile isdecimal s1) as [|d s2]; [reflexivity|].
      unfold lit. rewrite (N.eqb_sym DOT d).
      destruct (d =? DOT); [|reflexivity].
      rewrite plus_space_end.
      destruct s2 as [|w s3]; [reflexivity|].
      destruct (isspace w) eqn:Hw; [|reflexivity].
      split; [|cbn [pos]; simpl; rewrite Hd; simpl; lia].
      cbn [rest]. unfold lstrip. simpl. now rewrite Hw.
    + replace (1 <=? run_length isdecimal None (c :: s1))%nat with false
        by (simpl; now rewrite Hd).
      reflexivity.
Qed.

Lemma matches_item line :
  matches re_item line =
    match item_body line with Some _ => true | None => false end.
Proof.
  unfold matches. pose proof (re_item_spec line) as H.
  destruct (re_match re_item line).
  - destruct H as [-> _]. reflexivity.
  - now rewrite H.
Qed.

(** A match consumes a prefix of the subject: what it leaves is the
    subject without its first [pos] characters. *)
Lemma exec_inv r : forall st k m,
  exec r st k = Some m ->
  exists st', k st' = Some m /\ (pos st <= pos st')%nat /\
              rest st' = skipn (pos st' - pos st) (rest st).
Proof.
  induction r as [| |p|p lo hi|r1 IH1 r2 IH2|r1 IH1 r2 IH2|r1 IH1];
    intros st k m H; cbn [exec] in H.
  - destruct (pos st) eqn:E; [|discriminate].
    exists st. rewrite E. auto.
  - destruct (at_end_or_before_final_newline (rest st)); [|discriminate].
    exists st. rewrite Nat.sub_diag. auto.
  - destruct (rest st) as [|c s'] eqn:E; [discriminate|].
    destruct (p c); [|discriminate].
    eexists. split; [exact H|]. cbn [pos rest].
    replace (S (pos st) - pos st)%nat with 1%nat by lia. split; [lia|reflexivity].
  - apply rep_inv in H as (j & _ & H).
    eexists. split; [exact H|]. cbn [pos rest].
    replace (pos st + j - pos st)%nat with j by lia. split; [lia|reflexivity].
  - apply IH1 in H as (st1 & H & Hp1 & Hr1).
    apply IH2 in H as (st2 & H & Hp2 & Hr2).
    exists st2. split; [exact H|]. split; [lia|].
    rewrite Hr2, Hr1, skipn_skipn. f_equal. lia.
  - destruct (exec r1 st k) eqn:E.
    + inversion H; subst. now apply IH1 in E.
    + now apply IH2 in H.
  - apply IH1 in H as (st1 & H & Hp1 & Hr1).
    eexists. split; [exact H|]. cbn [pos rest]. auto.
Qed.

Lemma re_match_rest r s m : re_match r s = Some m -> rest m = skipn (pos m) s.
Proof.
  intros H. apply exec_inv in H as (st' & H & _ & Hr).
  inversion H; subst. cbn [pos rest] in Hr. now rewrite Nat.sub_0_r in Hr.
Qed.

Lemma sub_skip r s : forall start skip,
  sub_empty_from r start skip s
  = sub_empty_from r (start + skip) 0 (skipn skip s).
Proof.
  induction s as [|c s IH]; intros start skip.
  - now rewrite skipn_nil.
  - destruct skip as [|skip]; [now rewrite Nat.add_0_r|].
    cbn [sub_empty_from skipn]. rewrite IH. f_equal. lia.
Qed.

Lemma sub_after_start n s : sub_empty_from re_item (S n) 0 s = s.
Proof.
  revert n. induction s as [|c s IH]; intros n; [reflexivity|].
  cbn [sub_empty_from]. change (exec re_item (MState (S n) (c :: s) []) Some)
    with (@None mstate). now rewrite IH.
Qed.

(** Substituting the empty string for the item pattern leaves the body. *)
Lemma re_sub_item line body :
  item_body line = Some body -> re_sub_empty re_item line = body.
Proof.
  intros Hb. unfold re_sub_empty.
  pose proof (re_item_spec line) as H.
  destruct (re_match re_item line) as [m|] eqn:E; [|congruence].
  destruct H as [Hr Hp]. rewrite Hb in Hr. inversion Hr; subst.
  pose proof (re_match_rest _ _ _ E) as Hrest.
  destruct line as [|c s]; [now rewrite skipn_nil in Hrest|].
  cbn [sub_empty_from]. unfold re_match in E. rewrite E.
  rewrite Nat.sub_0_r. destruct (pos m) as [|n]; [lia|].
  rewrite sub_skip. cbn [Nat.add]. rewrite sub_after_start.
  now rewrite Hrest.
Qed.

Lemma item_text_body line body :
  item_body line = Some body -> item_text line = rstrip body.
Proof. intros H. unfold item_text. now rewrite (re_sub_item line body H). Qed.

(** *** Headings *)

Lemma run_length_bound p h s : (run_length p (Some h) s <= h)%nat.
Proof.
  revert h. induction s as [|c s IH]; intros h; simpl; [lia|].
  destruct h as [|h]; simpl.
  - rewrite andb_false_r. lia.
  - rewrite andb_true_r. destruct (p c); [|lia].
    specialize (IH h). lia.
Qed.

Lemma hashes_le6 line : (hashes line <= 6)%nat.
Proof. apply run_length_bound. Qed.

Lemma hash_not_space c : lit HASH c = true -> isspace c = false.
Proof. unfold lit. intros H. apply N.eqb_eq in H. now subst. Qed.

Lemma plus_space_refuses_hash n c s g :
  lit HASH c = true -> rep isspace 1 None n (c :: s) g Some = None.
Proof.
  intros H. rewrite plus_space_end. now rewrite (hash_not_space c H).
Qed.

(** The pattern the paragraph loop tests is [heading_start]. *)
Lemma matches_heading_start line :
  matches re_heading_start line = heading_start line.
Proof.
  unfold matches, re_match, re_heading_start, plus, heading_start.
  cbn [exec pos rest groups].
  rewrite rep_greedy.
  2:{ intros n c s g Hc. cbn [pos rest groups].
      now apply plus_space_refuses_hash. }
  fold (hashes line). destruct (1 <=? hashes line)%nat; [|reflexivity].
  cbn [pos rest groups andb]. rewrite plus_space_end.
  destruct (skipn (hashes line) line) as [|w s]; [reflexivity|].
  destruct (isspace w); reflexivity.
Qed.

(** A heading match captured the leading hashes, and a line it matches
    begins as the paragraph loop's heading test wants. *)
Lemma re_heading_inv line m :
  re_match re_heading line = Some m ->
  heading_start line = true /\
  exists text, groups m = [firstn (hashes line) line; text].
Proof.
  unfold re_match, re_heading, plus, star, heading_start.
  cbn [exec pos rest groups].
  rewrite rep_greedy.
  2:{ intros n c s g Hc. cbn [pos rest groups].
      apply rep_short. simpl. rewrite (hash_not_space c Hc). simpl. lia. }
  fold (hashes line). destruct (1 <=? hashes line)%nat; [|discriminate].
  cbn [pos rest groups andb app]. rewrite Nat.sub_0_r.
  intros H. apply rep_inv in H as (j & Hj & H).
  apply rep_inv in H as (j' & Hj' & H).
  cbn [pos rest groups] in H.
  destruct (at_end_or_before_final_newline _); [|discriminate].
  inversion H; subst; clear H. cbn [groups]. split; [|eauto].
  destruct (skipn (hashes line) line) as [|w s]; [simpl in Hj; lia|].
  simpl in Hj. destruct (isspace w); [reflexivity|simpl in Hj; lia].
Qed.

Lemma run_length_all p s :
  forallb p s = true -> run_length p None s = length s.
Proof.
  induction s as [|c s IH]; simpl; [reflexivity|].
  intros H. apply andb_prop in H as [-> H]. simpl. now rewrite IH.
Qed.

Lemma no_newline_skipn n s : no_newline s = true -> no_newline (skipn n s) = true.
Proof.
  unfold no_newline. rewrite !forallb_forall. intros H x Hx.
  apply H. rewrite <- (firstn_skipn n s). apply in_or_app. now right.
Qed.

Lemma no_newline_dropwhile p s :
  no_newline s = true -> no_newline (dropwhile p s) = true.
Proof.
  unfold no_newline. induction s as [|c s IH]; simpl; [reflexivity|].
  intros H. apply andb_prop in H as [Hc H].
  destruct (p c); [auto|]. simpl. now rewrite Hc, H.
Qed.

(** On a line without a line feed, as [splitlines] gives them, the heading
    pattern matches as soon as the line begins as a heading, and its second
    group is all that follows the white space. *)
Lemma re_heading_ok line :
  no_newline line = true -> heading_start line = true ->
  exists m, re_match re_heading line = Some m /\
            groups m = [firstn (hashes line) line;
                        lstrip (skipn (hashes line) line)].
Proof.
  intros Hnl. unfold re_match, re_heading, plus, star, heading_start.
  cbn [exec pos rest groups].
  rewrite rep_greedy.
  2:{ intros n c s g Hc. cbn [pos rest groups].
      apply rep_short. simpl. rewrite (hash_not_space c Hc). simpl. lia. }
  fold (hashes line). destruct (1 <=? hashes line)%nat; [|discriminate].
  cbn [pos rest groups andb app]. rewrite Nat.sub_0_r.
  pose proof (no_newline_skipn (hashes line) line Hnl) as Hnl'.
  destruct (skipn (hashes line) line) as [|w s] eqn:Hs; [discriminate|].
  intros Hw.
  set (tail := lstrip (w :: s)).
  assert (Htail : no_newline tail = true) by now apply no_newline_dropwhile.
  eexists. split.
  - apply rep_first.
    + simpl. rewrite Hw. simpl. lia.
    + rewrite skipn_run_unbounded. fold (lstrip (w :: s)). fold tail.
      apply rep_first; [lia|].
      cbn [pos rest groups].
      rewrite (run_length_all anychar tail Htail).
      rewrite skipn_all. cbn [at_end_or_before_final_newline].
      reflexivity.
  - cbn [groups].
    replace (_ + _ - _)%nat with (length tail) by lia.
    now rewrite firstn_all.
Qed.

(** *** Separators *)

Lemma matches_separator_inv s :
  matches re_separator s = true ->
  exists s', s = HYPHEN :: HYPHEN :: HYPHEN :: s'.
Proof.
  unfold matches, re_match, re_separator, plus.
  cbn [exec pos rest groups].
  destruct s as [|a s]; [discriminate|].
  unfold lit at 1. destruct (HYPHEN =? a) eqn:Ha; [|discriminate].
  destruct s as [|b s]; [discriminate|]. cbn [pos rest groups].
  unfold lit at 1. destruct (HYPHEN =? b) eqn:Hb; [|discriminate].
  cbn [pos rest groups].
  destruct s as [|c s]; [discriminate|].
  apply N.eqb_eq in Ha, Hb. subst a b.
  destruct (lit HYPHEN c) eqn:Hc.
  - apply N.eqb_eq in Hc. subst c. eauto.
  - rewrite rep_short; [discriminate|]. cbn [run_length]. rewrite Hc. simpl. lia.
Qed.

Lemma run_length_repeat c n :
  run_length (lit c) None (repeat c n) = n.
Proof.
  induction n as [|n IH]; simpl; [reflexivity|].
  unfold lit at 1. rewrite N.eqb_refl. simpl. now rewrite IH.
Qed.

Lemma matches_separator_hyphens n :
  (3 <= n)%nat -> matches re_separator (repeat HYPHEN n) = true.
Proof.
  intros H. destruct n as [|[|[|n]]]; try lia.
  unfold matches, re_match, re_separator, plus.
  cbn [exec pos rest groups repeat].
  unfold lit at 1 2. rewrite N.eqb_refl. cbn [pos rest groups].
  rewrite (rep_first (lit HYPHEN) _ _ _ _ _ _
             (MState (2 + S n) [] [])); [reflexivity| |].
  - change (HYPHEN :: repeat HYPHEN n) with (repeat HYPHEN (S n)).
    rewrite run_length_repeat. lia.
  - change (HYPHEN :: repeat HYPHEN n) with (repeat HYPHEN (S n)).
    rewrite run_length_repeat.
    assert (Hsk : skipn (S n) (repeat HYPHEN (S n)) = []).
    { rewrite <- (repeat_length HYPHEN (S n)) at 1. apply skipn_all. }
    cbn [exec rest]. rewrite Hsk. reflexivity.
Qed.

(** ** Stripping *)

Lemma dropwhile_snoc p s c :
  dropwhile p (s ++ [c]) =
    match dropwhile p s with
    | [] => if p c then [] else [c]
    | r => r ++ [c]
    end.
Proof.
  induction s as [|a s IH]; simpl; [reflexivity|].
  destruct (p a); [exact IH|reflexivity].
Qed.

Lemma rstrip_cons c s :
  rstrip (c :: s) =
    match rstrip s with
    | [] => if isspace c then [] else [c]
    | r => c :: r
    end.
Proof.
  unfold rstrip. simpl. rewrite dropwhile_snoc.
  destruct (dropwhile isspace (rev s)) as [|a r] eqn:E.
  - simpl. destruct (isspace c); reflexivity.
  - cbn [rev]. rewrite rev_app_distr. simpl.
    destruct (rev r ++ [a]) eqn:E'; [|reflexivity].
    now destruct (rev r).
Qed.

Lemma rstrip_cons_nonspace c s :
  isspace c = false -> rstrip (c :: s) = c :: rstrip s.
Proof.
  intros H. rewrite rstrip_cons, H. now destruct (rstrip s).
Qed.

Lemma dropwhile_head p s c r : dropwhile p s = c :: r -> p c = false.
Proof.
  induction s as [|a s IH]; simpl; [discriminate|].
  destruct (p a) eqn:Ha; [exact IH|]. intros H. inversion H; subst. exact Ha.
Qed.

Lemma dropwhile_fix p s :
  (forall c r, s = c :: r -> p c = false) -> dropwhile p s = s.
Proof.
  destruct s as [|c r]; [reflexivity|]. intros H. simpl.
  now rewrite (H c r eq_refl).
Qed.

Lemma dropwhile_idem p s : dropwhile p (dropwhile p s) = dropwhile p s.
Proof.
  apply dropwhile_fix. intros c r H. now apply dropwhile_head in H.
Qed.

(** What [rstrip] returns does not end in white space. *)
Lemma rstrip_last s t c : rstrip s = t ++ [c] -> isspace c = false.
Proof.
  unfold rstrip. intros H. apply (f_equal (@rev _)) in H.
  rewrite rev_involutive, rev_app_distr in H. simpl in H.
  now apply dropwhile_head in H.
Qed.

Lemma rstrip_idem s : rstrip (rstrip s) = rstrip s.
Proof.
  unfold rstrip. rewrite rev_involutive. now rewrite dropwhile_idem.
Qed.

(** A string that does not end in white space is its own [rstrip]. *)
Lemma rstrip_fix s :
  (forall t c, s = t ++ [c] -> isspace c = false) -> rstrip s = s.
Proof.
  intros H. unfold rstrip. rewrite dropwhile_fix; [apply rev_involutive|].
  intros c r Hr. apply (H (rev r) c).
  rewrite <- (rev_involutive s), Hr. reflexivity.
Qed.

Lemma lstrip_head l c s : lstrip l = c :: s -> isspace c = false.
Proof. apply dropwhile_head. Qed.

Lemma strip_of_lstrip l c s :
  lstrip l = c :: s -> strip l = c :: rstrip s.
Proof.
  intros H. unfold strip. rewrite H.
  apply rstrip_cons_nonspace. now apply lstrip_head in H.
Qed.

Lemma strip_blank l : lstrip l = [] -> strip l = [].
Proof. intros H. unfold strip. now rewrite H. Qed.

Lemma strip_head l c s : strip l = c :: s -> exists s', lstrip l = c :: s'.
Proof.
  destruct (lstrip l) as [|a r] eqn:E.
  - rewrite (strip_blank l E). discriminate.
  - rewrite (strip_of_lstrip l a r E). intros H. inversion H; subst. eauto.
Qed.

Lemma strip_head_nonspace l c s : strip l = c :: s -> isspace c = false.
Proof. intros H. apply strip_head in H as (s' & H). now apply lstrip_head in H. Qed.

Lemma lstrip_fix c s : isspace c = false -> lstrip (c :: s) = c :: s.
Proof. intros H. unfold lstrip. simpl. now rewrite H. Qed.

Lemma strip_lstrip l : strip (lstrip l) = strip l.
Proof. unfold strip, lstrip. now rewrite dropwhile_idem. Qed.

(** ** The rules do not overlap *)

Lemma fence_lstrip l :
  is_fence l = true -> exists s, lstrip l = BACKTICK :: s.
Proof.
  unfold is_fence. destruct (strip l) as [|c s] eqn:E; [discriminate|].
  simpl. intros H. apply andb_prop in H as [H _]. apply N.eqb_eq in H. subst c.
  now apply strip_head in E.
Qed.

Lemma item_marker l :
  is_item l = true ->
  exists c s, lstrip l = c :: s /\
              (c = HYPHEN \/ c = STAR \/ isdecimal c = true) /\
              (c = HYPHEN -> exists w s', s = w :: s' /\ isspace w = true).
Proof.
  unfold is_item. rewrite matches_item. unfold item_body, marker_end.
  destruct (lstrip l) as [|c s]; [discriminate|]. intros H.
  exists c, s. split; [reflexivity|].
  destruct (oneof [HYPHEN; STAR] c) eqn:Hb.
  - split.
    + unfold oneof in Hb. simpl in Hb. rewrite orb_false_r in Hb.
      apply orb_prop in Hb as [Hb|Hb]; apply N.eqb_eq in Hb; auto.
    + intros _. destruct s as [|w s']; [discriminate|].
      destruct (isspace w) eqn:Hw; [eauto|discriminate].
  - destruct (isdecimal c) eqn:Hd; [|discriminate].
    split; [auto|]. intros ->. discriminate.
Qed.

Lemma item_not_fence l : is_item l = true -> is_fence l = false.
Proof.
  intros H. apply item_marker in H as (c & s & Hl & Hc & _).
  destruct (is_fence l) eqn:Hf; [|reflexivity].
  apply fence_lstrip in Hf as (s' & Hf). rewrite Hf in Hl.
  inversion Hl; subst c.
  destruct Hc as [Hc|[Hc|Hc]]; discriminate.
Qed.

Lemma fence_not_item l : is_fence l = true -> is_item l = false.
Proof.
  intros H. destruct (is_item l) eqn:E; [|reflexivity].
  apply item_not_fence in E. congruence.
Qed.

Lemma heading_start_head l :
  heading_start l = true -> exists s, l = HASH :: s.
Proof.
  unfold heading_start, hashes. destruct l as [|c s]; [discriminate|].
  cbn [run_length bounded negb]. rewrite andb_true_r.
  destruct (lit HASH c) eqn:Hc; [|discriminate].
  apply N.eqb_eq in Hc. subst c. eauto.
Qed.

Lemma heading_not_item l : heading_start l = true -> is_item l = false.
Proof.
  intros H. apply heading_start_head in H as (s & ->).
  destruct (is_item (HASH :: s)) eqn:E; [|reflexivity].
  apply item_marker in E as (c & s' & Hl & Hc & _).
  rewrite lstrip_fix in Hl by reflexivity. inversion Hl; subst c.
  destruct Hc as [Hc|[Hc|Hc]]; discriminate.
Qed.

Lemma separator_not_item l :
  matches re_separator (strip l) = true -> is_item l = false.
Proof.
  intros H. apply matches_separator_inv in H as (s & H).
  destruct (is_item l) eqn:E; [|reflexivity].
  apply item_marker in E as (c & s' & Hl & _ & Hw).
  rewrite (strip_of_lstrip l c s' Hl) in H. inversion H; subst c.
  destruct (Hw eq_refl) as (w & s'' & -> & Hsp).
  rewrite rstrip_cons in H2.
  destruct (rstrip s''); [destruct (isspace w)|]; inversion H2; subst;
    discriminate.
Qed.

Lemma heading_matches_start l :
  matches re_heading l = true -> heading_start l = true.
Proof.
  unfold matches. destruct (re_match re_heading l) eqn:E; [|discriminate].
  intros _. now apply re_heading_inv in E as [H _].
Qed.

(** A line that does not end a paragraph is a paragraph line. *)
Lemma not_break_para_line l : para_break l = false -> is_para_line l = true.
Proof.
  unfold para_break, is_para_line, is_fence. intros H.
  apply orb_false_elim in H as [H Hsep].
  apply orb_false_elim in H as [H Hitem].
  apply orb_false_elim in H as [H Hhead].
  apply orb_false_elim in H as [Hblank Hfence].
  rewrite Hblank, Hfence, Hsep, Hitem. cbn [negb andb]. rewrite andb_true_r.
  destruct (matches re_heading l) eqn:E; [|reflexivity].
  apply heading_matches_start in E. rewrite matches_heading_start in Hhead.
  congruence.
Qed.

(** ** The loops of [scan] *)

Lemma take_run_stop stop f cont post acc :
  Forall (fun l => stop l = false) cont -> starts_with stop post ->
  take_run stop f (cont ++ post) acc = (acc ++ map f cont, post).
Proof.
  intros Hc Hp. revert acc. induction Hc as [|l cont Hl _ IH]; intros acc.
  - simpl. rewrite app_nil_r. destruct post as [|t post]; [reflexivity|].
    simpl in *. now rewrite Hp.
  - simpl. rewrite Hl, IH, <- app_assoc. reflexivity.
Qed.

Lemma take_run_split stop f ls acc :
  exists cont,
    ls = cont ++ snd (take_run stop f ls acc) /\
    Forall (fun l => stop l = false) cont /\
    starts_with stop (snd (take_run stop f ls acc)) /\
    fst (take_run stop f ls acc) = acc ++ map f cont.
Proof.
  revert acc. induction ls as [|l ls IH]; intros acc.
  - exists []. simpl. rewrite app_nil_r. auto.
  - simpl. destruct (stop l) eqn:Hl.
    + exists []. simpl. rewrite app_nil_r. auto.
    + destruct (IH (acc ++ [f l])) as (cont & H1 & H2 & H3 & H4).
      exists (l :: cont). simpl. rewrite H4, <- app_assoc.
      repeat split; auto. now f_equal.
Qed.

Lemma take_run_length stop f ls acc :
  (length (snd (take_run stop f ls acc)) <= length ls)%nat.
Proof.
  destruct (take_run_split stop f ls acc) as (cont & H & _).
  rewrite H at 2. rewrite length_app. lia.
Qed.

(** The main loop, one line at a time, with the inner loops as [list_run]
    and [para_run]. *)
Lemma scan_eq line lines in_code code_buf blocks :
  scan (line :: lines) in_code code_buf blocks =
    if is_fence line then
      if in_code then
        scan lines false [] (blocks ++ [Code (rstrip (join [LF] code_buf))])
      else scan lines true code_buf blocks
    else if in_code then scan lines in_code (code_buf ++ [line]) blocks
    else if is_empty (strip line) then scan lines in_code code_buf blocks
    else if matches re_separator (strip line) then
      scan lines in_code code_buf (blocks ++ [Separator])
    else
      match re_match re_heading line with
      | Some heading =>
          scan lines in_code code_buf
            (blocks ++ [Heading (length (group 1 heading))
                                (strip (group 2 heading))])
      | None =>
          if matches re_item line then
            let r := list_run lines [item_text line] in
            scan (snd r) in_code code_buf (blocks ++ [List (fst r)])
          else
            let r := para_run lines [strip line] in
            scan (snd r) in_code code_buf
              (blocks ++ [Para (strip (join [SPACE] (fst r)))])
      end.
Proof.
  cbn [scan]. unfold is_fence.
  destruct (startswith (strip line) fence); [reflexivity|].
  destruct in_code; [reflexivity|].
  destruct (is_empty (strip line)); [reflexivity|].
  destruct (matches re_separator (strip line)); [reflexivity|].
  destruct (re_match re_heading line); [reflexivity|].
  destruct (matches re_item line).
  - cbv zeta. generalize [item_text line] as items.
    induction lines as [|l ls IH]; intros items; [reflexivity|].
    unfold list_run. cbn [take_run]. fold list_run. unfold not_item.
    destruct (matches re_item l); cbn [negb fst snd]; [apply IH|reflexivity].
  - cbv zeta. generalize [strip line] as para_lines.
    induction lines as [|l ls IH]; intros para_lines; [reflexivity|].
    cbn [para_run take_run].
    destruct (para_break l); cbn [fst snd]; [reflexivity|apply IH].
Qed.

Lemma list_len_ind (P : list str -> Prop) :
  (forall ls, (forall ls', (length ls' < length ls)%nat -> P ls') -> P ls) ->
  forall ls, P ls.
Proof.
  intros H ls. remember (length ls) as n eqn:Hn. revert ls Hn.
  induction n as [n IH] using lt_wf_ind. intros ls ->.
  apply H. intros ls' Hlt. now apply (IH (length ls')).
Qed.

(** The blocks already appended are a prefix of the result. *)
Lemma scan_acc ls : forall in_code code_buf b1 b2,
  scan ls in_code code_buf (b1 ++ b2) = b1 ++ scan ls in_code code_buf b2.
Proof.
  induction ls as [ls IH] using list_len_ind.
  intros in_code code_buf b1 b2. destruct ls as [|line ls]; [reflexivity|].
  rewrite !scan_eq.
  assert (Hl : forall stop f acc,
    (length (snd (take_run stop f ls acc)) < length (line :: ls))%nat).
  { intros. pose proof (take_run_length stop f ls acc). simpl. lia. }
  repeat match goal with
         | |- context [if ?b then _ else _] => destruct b
         | |- context [match ?o with Some _ => _ | None => _ end] => destruct o
         end;
    cbv zeta; rewrite <- ?app_assoc; apply IH;
    first [apply Hl | simpl; lia].
Qed.

Lemma scan_blocks ls in_code code_buf blocks :
  scan ls in_code code_buf blocks = blocks ++ scan ls in_code code_buf [].
Proof.
  rewrite <- (app_nil_r blocks) at 1. apply scan_acc.
Qed.

(** *** Parsing a document in two parts *)

Lemma code_state_app a b st :
  code_state (a ++ b) st = code_state b (code_state a st).
Proof. apply fold_left_app. Qed.

Lemma code_state_cons l ls st :
  code_state (l :: ls) st = code_state ls (code_step st l).
Proof. reflexivity. Qed.

Lemma code_state_normal ls code_buf :
  Forall (fun l => is_fence l = false) ls ->
  code_state ls (false, code_buf) = (false, code_buf).
Proof.
  induction 1 as [|l ls Hl _ IH]; [reflexivity|].
  unfold code_state in *. simpl. now rewrite Hl.
Qed.

Lemma last_in (l : str) ls : In (last (l :: ls) []) (l :: ls).
Proof.
  revert l. induction ls as [|a ls IH]; intros l; [now left|].
  right. apply (IH a).
Qed.

Lemma last_app_cons (a : list str) x r :
  last (a ++ x :: r) [] = last (x :: r) [].
Proof.
  induction a as [|y a IH]; [reflexivity|].
  rewrite <- IH. simpl. now destruct (a ++ x :: r) eqn:E; [destruct a|].
Qed.

Lemma glue_suffix a r tail : glue (a ++ r) tail -> glue r tail.
Proof.
  destruct r as [|x r]; [now destruct tail|].
  destruct tail as [|t tail]; [intros _; exact I|].
  destruct a as [|y a]; [auto|].
  unfold glue. rewrite <- (last_app_cons (y :: a) x r). auto.
Qed.

Lemma glue_last l cont t tail (Q : str -> Prop) :
  glue (l :: cont) (t :: tail) -> Forall Q (l :: cont) ->
  exists x, Q x /\ apart x t.
Proof.
  intros Hg HQ. exists (last (l :: cont) []). split; [|exact Hg].
  rewrite Forall_forall in HQ. apply HQ, last_in.
Qed.

(** A document [pre ++ tail] whose parts the loops keep apart is parsed part
    by part: [tail] is scanned from the state [pre] leaves. *)
Lemma scan_app pre : forall tail in_code code_buf blocks,
  glue pre tail ->
  scan (pre ++ tail) in_code code_buf blocks =
    scan tail (fst (code_state pre (in_code, code_buf)))
              (snd (code_state pre (in_code, code_buf)))
              (scan pre in_code code_buf blocks).
Proof.
  induction pre as [pre IH] using list_len_ind.
  intros tail in_code code_buf blocks Hg.
  destruct pre as [|line pre]; [reflexivity|].
  assert (Hg' : glue pre tail) by apply (glue_suffix [line] pre tail Hg).
  assert (Hlt : (length pre < length (line :: pre))%nat) by (simpl; lia).
  rewrite <- app_comm_cons, !scan_eq.
  rewrite code_state_cons. unfold code_step.
  destruct (is_fence line) eqn:Hfence.
  { destruct in_code; now apply IH. }
  destruct in_code; [now apply IH|].
  destruct (is_empty (strip line)) eqn:Hblank; [now apply IH|].
  destruct (matches re_separator (strip line)) eqn:Hsep; [now apply IH|].
  destruct (re_match re_heading line) eqn:Hhead; [now apply IH|].
  destruct (matches re_item line) eqn:Hitem; cbv zeta.
  - destruct (take_run_split not_item item_text pre [item_text line])
      as (cont & Hpre & Hcont & Hstop & Hfst).
    fold list_run in *.
    remember (snd (list_run pre [item_text line])) as r eqn:Hr.
    assert (Hitems : Forall (fun l => is_item l = true) (line :: cont)).
    { constructor; [exact Hitem|].
      eapply Forall_impl; [|exact Hcont]. unfold not_item, is_item.
      intros l Hl. now destruct (matches re_item l). }
    assert (Hrun : list_run (pre ++ tail) [item_text line]
                   = (fst (list_run pre [item_text line]), r ++ tail)).
    { rewrite Hfst. rewrite Hpre at 1. rewrite <- app_assoc.
      apply take_run_stop; [exact Hcont|].
      destruct r as [|x r']; [|exact Hstop].
      rewrite app_nil_r in Hpre. subst pre.
      destruct tail as [|t tail]; [exact I|]. cbn [app starts_with].
      destruct (glue_last _ _ _ _ _ Hg Hitems) as (x & Hx & Ha & _).
      unfold not_item. fold (is_item t). now rewrite (Ha Hx). }
    assert (Hcs : code_state pre (false, code_buf)
                  = code_state r (false, code_buf)).
    { rewrite Hpre at 1. rewrite code_state_app.
      rewrite (code_state_normal cont); [reflexivity|].
      inversion Hitems; subst.
      eapply Forall_impl; [|eassumption]. intros l. apply item_not_fence. }
    rewrite Hrun, Hcs. cbn [fst snd].
    apply IH.
    + pose proof (take_run_length not_item item_text pre [item_text line]).
      fold list_run in *. rewrite <- Hr in H. simpl. lia.
    + apply (glue_suffix (line :: cont)). cbn [app]. now rewrite <- Hpre.
  - destruct (take_run_split para_break strip pre [strip line])
      as (cont & Hpre & Hcont & Hstop & Hfst).
    fold para_run in *.
    remember (snd (para_run pre [strip line])) as r eqn:Hr.
    assert (Hparas : Forall (fun l => is_para_line l = true) (line :: cont)).
    { constructor.
      - unfold is_para_line. rewrite Hfence, Hblank, Hsep, Hitem.
        unfold matches. now rewrite Hhead.
      - eapply Forall_impl; [|exact Hcont]. apply not_break_para_line. }
    assert (Hrun : para_run (pre ++ tail) [strip line]
                   = (fst (para_run pre [strip line]), r ++ tail)).
    { rewrite Hfst. rewrite Hpre at 1. rewrite <- app_assoc.
      apply take_run_stop; [exact Hcont|].
      destruct r as [|x r']; [|exact Hstop].
      rewrite app_nil_r in Hpre. subst pre.
      destruct tail as [|t tail]; [exact I|]. cbn [app starts_with].
      destruct (glue_last _ _ _ _ _ Hg Hparas) as (x & Hx & _ & Ha).
      exact (Ha Hx). }
    assert (Hcs : code_state pre (false, code_buf)
                  = code_state r (false, code_buf)).
    { rewrite Hpre at 1. rewrite code_state_app.
      rewrite (code_state_normal cont); [reflexivity|].
      eapply Forall_impl; [|exact Hcont]. intros l Hl.
      unfold para_break in Hl. unfold is_fence.
      repeat (apply orb_false_elim in Hl as [Hl ?]). assumption. }
    rewrite Hrun, Hcs. cbn [fst snd].
    apply IH.
    + pose proof (take_run_length para_break strip pre [strip line]).
      fold para_run in *. rewrite <- Hr in H. simpl. lia.
    + apply (glue_suffix (line :: cont)). cbn [app]. now rewrite <- Hpre.
Qed.

Lemma code_state_buf ls : forall st,
  (fst st = false -> snd st = []) ->
  fst (code_state ls st) = false -> snd (code_state ls st) = [].
Proof.
  induction ls as [|l ls IH]; intros st Hst; [exact Hst|].
  rewrite code_state_cons. apply IH.
  destruct st as [[|] buf]; unfold code_step; destruct (is_fence l); simpl;
    auto; discriminate.
Qed.

Lemma code_state_outside pre :
  in_code_after pre = false -> code_state pre (false, []) = (false, []).
Proof.
  unfold in_code_after. intros H.
  pose proof (code_state_buf pre (false, []) (fun _ => eq_refl) H) as Hb.
  destruct (code_state pre (false, [])). simpl in *. congruence.
Qed.

(** Outside a fence, a document is parsed part by part. *)
Lemma parse_lines_app pre tail :
  in_code_after pre = false -> glue pre tail ->
  parse_lines (pre ++ tail) = parse_lines pre ++ parse_lines tail.
Proof.
  intros Hout Hg. unfold parse_lines.
  rewrite (scan_app pre tail false [] [] Hg), (code_state_outside pre Hout).
  cbn [fst snd]. apply scan_blocks.
Qed.

(** Every line stands apart from a line that ends paragraphs and is no item. *)
Lemma glue_boundary pre t tail :
  para_break t = true -> is_item t = false -> glue pre (t :: tail).
Proof.
  intros Hb Hi. destruct pre as [|l pre]; [exact I|]. split; auto.
Qed.

Lemma para_break_fence l : is_fence l = true -> para_break l = true.
Proof.
  unfold para_break, is_fence. intros ->.
  now rewrite orb_true_r.
Qed.

Lemma glue_fence pre t tail : is_fence t = true -> glue pre (t :: tail).
Proof.
  intros H. apply glue_boundary; [now apply para_break_fence|now apply fence_not_item].
Qed.

(** *** Inside a fence *)

Lemma scan_in_code body : forall tail code_buf blocks,
  Forall (fun l => is_fence l = false) body ->
  scan (body ++ tail) true code_buf blocks
  = scan tail true (code_buf ++ body) blocks.
Proof.
  induction body as [|l body IH]; intros tail code_buf blocks H.
  - now rewrite app_nil_r.
  - inversion H; subst. rewrite <- app_comm_cons, scan_eq.
    replace (is_fence l) with false by auto.
    rewrite IH by assumption. now rewrite <- app_assoc.
Qed.

Lemma scan_fenced opening body closing post blocks :
  is_fence opening = true ->
  Forall (fun l => is_fence l = false) body ->
  is_fence closing = true ->
  scan (opening :: body ++ closing :: post) false [] blocks
  = scan post false [] (blocks ++ [Code (rstrip (join [LF] body))]).
Proof.
  intros Ho Hb Hc. rewrite scan_eq, Ho, (scan_in_code body) by assumption.
  now rewrite scan_eq, Hc.
Qed.

Lemma scan_unterminated opening body blocks :
  is_fence opening = true ->
  Forall (fun l => is_fence l = false) body ->
  scan (opening :: body) false [] blocks = blocks.
Proof.
  intros Ho Hb. rewrite scan_eq, Ho.
  rewrite <- (app_nil_r body), (scan_in_code body) by assumption.
  reflexivity.
Qed.

(** *** The text of a fence delimiter is not read *)

Lemma take_run_related stop f :
  (forall a b, same_but_fences a b -> a = b \/ (stop a = true /\ stop b = true)) ->
  forall ls ls', Forall2 same_but_fences ls ls' ->
  forall acc,
    fst (take_run stop f ls acc) = fst (take_run stop f ls' acc) /\
    Forall2 same_but_fences (snd (take_run stop f ls acc))
                            (snd (take_run stop f ls' acc)).
Proof.
  intros Hstop ls ls' H.
  induction H as [|a b ls ls' Hab Hls IH]; intros acc.
  - simpl. auto.
  - destruct (Hstop a b Hab) as [<-|[Ha Hb]].
    + simpl. destruct (stop a); [|apply IH].
      simpl. split; [reflexivity|]. constructor; assumption.
    + simpl. rewrite Ha, Hb. simpl. split; [reflexivity|].
      constructor; assumption.
Qed.

Lemma scan_fence_text ls : forall ls' in_code code_buf blocks,
  Forall2 same_but_fences ls ls' ->
  scan ls in_code code_buf blocks = scan ls' in_code code_buf blocks.
Proof.
  induction ls as [ls IH] using list_len_ind.
  intros ls' in_code code_buf blocks H.
  destruct H as [|l l' ls ls' Hl Hls]; [reflexivity|].
  assert (Hlt : (length ls < length (l :: ls))%nat) by (simpl; lia).
  destruct Hl as [<-|[Hf Hf']].
  - rewrite !scan_eq.
    destruct (is_fence l).
    { destruct in_code; now apply IH. }
    destruct in_code; [now apply IH|].
    destruct (is_empty (strip l)); [now apply IH|].
    destruct (matches re_separator (strip l)); [now apply IH|].
    destruct (re_match re_heading l); [now apply IH|].
    destruct (matches re_item l); cbv zeta.
    + destruct (take_run_related not_item item_text) with
        (ls := ls) (ls' := ls') (acc := [item_text l]) as [Hfst Hsnd]; auto.
      { intros a b [<-|[Ha Hb]]; [now left|right].
        unfold not_item. fold (is_item a) (is_item b).
        now rewrite !fence_not_item. }
      fold list_run in *. rewrite <- Hfst. apply IH; [|exact Hsnd].
      pose proof (take_run_length not_item item_text ls [item_text l]).
      fold list_run in *. simpl. lia.
    + destruct (take_run_related para_break strip) with
        (ls := ls) (ls' := ls') (acc := [strip l]) as [Hfst Hsnd]; auto.
      { intros a b [<-|[Ha Hb]]; [now left|right].
        now rewrite !para_break_fence. }
      fold para_run in *. rewrite <- Hfst. apply IH; [|exact Hsnd].
      pose proof (take_run_length para_break strip ls [strip l]).
      fold para_run in *. simpl. lia.
  - rewrite !scan_eq, Hf, Hf'. destruct in_code; now apply IH.
Qed.

(** ** Code fences *)

(** C1. A document holds a fenced block: a fence line [opening] met outside a
    fence, lines [body] none of which is a fence line, and a fence line
    [closing]. Then [parse_markdown] emits, between the blocks of what
    precedes and the blocks of what follows, one code block, whose content
    is the lines of [body] joined by line feeds, with trailing white space
    removed. No fence delimiter line reaches a block: the blocks are the same
    whatever text the fence lines of the document carry. *)
Theorem fenced_block_emitted text pre opening body closing post :
  splitlines text = pre ++ opening :: body ++ closing :: post ->
  in_code_after pre = false ->
  is_fence opening = true ->
  Forall (fun l => is_fence l = false) body ->
  is_fence closing = true ->
  parse_markdown text
    = parse_lines pre ++ Code (rstrip (join [LF] body)) :: parse_lines post
  /\ (forall lines', Forall2 same_but_fences (splitlines text) lines' ->
        parse_lines lines' = parse_markdown text).
Proof.
  intros Hlines Hout Ho Hb Hc. unfold parse_markdown. split.
  - rewrite Hlines, parse_lines_app by auto using glue_fence.
    f_equal. unfold parse_lines.
    rewrite scan_fenced by assumption. apply (scan_blocks post false [] [_]).
  - intros lines' H. symmetry. now apply scan_fence_text.
Qed.

Lemma fenced_block_emitted_witness :
  parse_markdown (unlines ["intro"; "```py"; "x = 1  "; ""; "```"; "end"]%string)
  = [Para (U "intro"); Code (U "x = 1"); Para (U "end")].
Proof.
  refine (proj1 (fenced_block_emitted
           (unlines ["intro"; "```py"; "x = 1  "; ""; "```"; "end"]%string)
           [U "intro"] (U "```py") [U "x = 1  "; []] (U "```") [U "end"]
           _ _ _ _ _));
    try reflexivity.
  repeat constructor.
Defined.

(** C2. A fence is opened outside a fence and no fence line follows it
    before the end of the input. Then [parse_markdown] returns the blocks of
    the lines before the opening line and nothing more: no code block is
    emitted for the lines the open fence gathered. *)
Theorem unterminated_fence_lost text pre opening body :
  splitlines text = pre ++ opening :: body ->
  in_code_after pre = false ->
  is_fence opening = true ->
  Forall (fun l => is_fence l = false) body ->
  parse_markdown text = parse_lines pre.
Proof.
  intros Hlines Hout Ho Hb. unfold parse_markdown.
  rewrite Hlines, parse_lines_app by auto using glue_fence.
  unfold parse_lines at 2. rewrite scan_unterminated by assumption.
  apply app_nil_r.
Qed.

Lemma unterminated_fence_lost_witness :
  parse_markdown (unlines ["intro"; "```py"; "x = 1"; "y = 2"]%string)
  = [Para (U "intro")].
Proof.
  apply (unterminated_fence_lost
           (unlines ["intro"; "```py"; "x = 1"; "y = 2"]%string)
           [U "intro"] (U "```py") [U "x = 1"; U "y = 2"]);
    try reflexivity.
  repeat constructor.
Defined.

(** ** Lines *)

Lemma splitlines_from_no_linebreak s : forall cur after_cr l,
  no_linebreak cur = true ->
  In l (splitlines_from cur after_cr s) -> no_linebreak l = true.
Proof.
  induction s as [|c s IH]; intros cur after_cr l Hcur Hin.
  - simpl in Hin. destruct (is_empty cur); [contradiction|].
    destruct Hin as [<-|[]]. exact Hcur.
  - simpl in Hin. destruct (after_cr && (c =? LF)); [eauto|].
    destruct (islinebreak c) eqn:Hc.
    + destruct Hin as [<-|Hin]; [exact Hcur|]. eapply IH; [|exact Hin].
      reflexivity.
    + eapply IH; [|exact Hin]. unfold no_linebreak in *.
      rewrite forallb_app, Hcur. simpl. now rewrite Hc.
Qed.

(** The lines of [splitlines] hold no line boundary, and so no line feed. *)
Lemma splitlines_no_linebreak text l :
  In l (splitlines text) -> no_linebreak l = true.
Proof. now apply splitlines_from_no_linebreak. Qed.

Lemma no_linebreak_no_newline l : no_linebreak l = true -> no_newline l = true.
Proof.
  unfold no_linebreak, no_newline. rewrite !forallb_forall.
  intros H c Hc. specialize (H c Hc). unfold anychar.
  destruct (c =? LF) eqn:E; [|reflexivity].
  apply N.eqb_eq in E. now subst c.
Qed.

Lemma splitlines_no_newline text pre line post :
  splitlines text = pre ++ line :: post -> no_newline line = true.
Proof.
  intros H. apply no_linebreak_no_newline, (splitlines_no_linebreak text).
  rewrite H. apply in_or_app. right. now left.
Qed.

(** ** Separators *)

Lemma glue_separator pre line tail :
  matches re_separator (strip line) = true -> glue pre (line :: tail).
Proof.
  intros H. apply glue_boundary.
  - unfold para_break. rewrite H. apply orb_true_r.
  - now apply separator_not_item.
Qed.

Lemma scan_separator line lines blocks :
  matches re_separator (strip line) = true ->
  scan (line :: lines) false [] blocks = scan lines false [] (blocks ++ [Separator]).
Proof.
  intros H. rewrite scan_eq, H.
  destruct (matches_separator_inv _ H) as (s & Hs).
  unfold is_fence. rewrite Hs. reflexivity.
Qed.

(** C6. A line met outside a fence whose trimmed content is three hyphens or
    more, and nothing else, gives one separator block, between the blocks
    of what precedes and the blocks of what follows. A line of two hyphens
    is no separator: the separator pattern refuses it, the paragraph rule
    takes it, and alone it gives the paragraph of its text. *)
Theorem separator_line :
  (forall text pre line post n,
     splitlines text = pre ++ line :: post ->
     in_code_after pre = false ->
     strip line = repeat HYPHEN n -> (3 <= n)%nat ->
     parse_markdown text = parse_lines pre ++ Separator :: parse_lines post)
  /\ matches re_separator (strip (U "--")) = false
  /\ is_para_line (U "--") = true
  /\ parse_markdown (U "--") = [Para (U "--")].
Proof.
  split; [|repeat split; reflexivity].
  intros text pre line post n Hlines Hout Hline Hn.
  assert (Hsep : matches re_separator (strip line) = true).
  { rewrite Hline. now apply matches_separator_hyphens. }
  unfold parse_markdown.
  rewrite Hlines, parse_lines_app by auto using glue_separator.
  f_equal. unfold parse_lines. rewrite scan_separator by assumption.
  apply (scan_blocks post false [] [_]).
Qed.

Lemma separator_line_witness :
  parse_markdown (unlines ["above"; "  -------  "; "---"; "below"]%string)
  = [Para (U "above"); Separator; Separator; Para (U "below")].
Proof.
  refine (proj1 separator_line
            (unlines ["above"; "  -------  "; "---"; "below"]%string)
            [U "above"] (U "  -------  ") [U "---"; U "below"] 7%nat
            _ _ _ _); try reflexivity.
  simpl; lia.
Defined.

(** ** Headings *)

Lemma hashes_firstn line : length (firstn (hashes line) line) = hashes line.
Proof.
  rewrite length_firstn. pose proof (run_length_le (lit HASH) (Some 6%nat) line).
  unfold hashes. lia.
Qed.

Lemma heading_not_fence line : heading_start line = true -> is_fence line = false.
Proof.
  intros H. apply heading_start_head in H as (s & ->).
  unfold is_fence. rewrite (strip_of_lstrip (HASH :: s) HASH s); [reflexivity|].
  now apply lstrip_fix.
Qed.

Lemma heading_not_blank line :
  heading_start line = true -> is_empty (strip line) = false.
Proof.
  intros H. apply heading_start_head in H as (s & ->).
  rewrite (strip_of_lstrip (HASH :: s) HASH s); [reflexivity|].
  now apply lstrip_fix.
Qed.

Lemma heading_not_separator line :
  heading_start line = true -> matches re_separator (strip line) = false.
Proof.
  intros H. apply heading_start_head in H as (s & ->).
  destruct (matches re_separator (strip (HASH :: s))) eqn:E; [|reflexivity].
  apply matches_separator_inv in E as (s' & E).
  rewrite (strip_of_lstrip (HASH :: s) HASH s) in E by now apply lstrip_fix.
  discriminate.
Qed.

(** What the heading rule appends for a line of [splitlines]: the level is
    the number of hashes, the text what follows them, stripped. *)
Lemma scan_heading line lines blocks :
  no_newline line = true -> heading_start line = true ->
  scan (line :: lines) false [] blocks
  = scan lines false []
      (blocks ++ [Heading (hashes line) (strip (skipn (hashes line) line))]).
Proof.
  intros Hnl Hh. rewrite scan_eq.
  rewrite (heading_not_fence line Hh), (heading_not_blank line Hh),
    (heading_not_separator line Hh).
  destruct (re_heading_ok line Hnl Hh) as (m & -> & Hg).
  unfold group. rewrite Hg. cbn [Nat.pred nth].
  now rewrite hashes_firstn, strip_lstrip.
Qed.

Lemma glue_heading pre line tail :
  heading_start line = true -> glue pre (line :: tail).
Proof.
  intros H. apply glue_boundary.
  - unfold para_break. rewrite matches_heading_start, H.
    now rewrite !orb_true_r.
  - now apply heading_not_item.
Qed.

Lemma run_length_hashes h n s :
  (n <= h)%nat ->
  (forall c s', s = c :: s' -> lit HASH c = false) ->
  run_length (lit HASH) (Some h) (repeat HASH n ++ s) = n.
Proof.
  revert h. induction n as [|n IH]; intros h Hn Hs.
  - cbn [repeat app]. destruct s as [|c s']; [reflexivity|].
    cbn [run_length]. now rewrite (Hs c s' eq_refl).
  - destruct h as [|h]; [lia|].
    cbn [repeat app run_length bounded negb option_map Nat.pred].
    unfold lit at 1. rewrite N.eqb_refl. cbn [andb].
    rewrite IH; [reflexivity|lia|exact Hs].
Qed.

Lemma skipn_repeat_app (c : codepoint) n s : skipn n (repeat c n ++ s) = s.
Proof. induction n; simpl; auto. Qed.

Lemma lstrip_spaces ws s :
  forallb isspace ws = true -> lstrip (ws ++ s) = lstrip s.
Proof.
  induction ws as [|w ws IH]; [reflexivity|]. simpl.
  intros H. apply andb_prop in H as [Hw H]. unfold lstrip in *. simpl.
  rewrite Hw. auto.
Qed.

(** A line of one to six hashes, white space, and a remaining text. *)
Lemma heading_line_shape n ws remaining :
  (1 <= n <= 6)%nat -> ws <> [] -> forallb isspace ws = true ->
  let line := repeat HASH n ++ ws ++ remaining in
  hashes line = n /\ heading_start line = true /\ skipn n line = ws ++ remaining.
Proof.
  intros Hn Hws Hsp line.
  destruct ws as [|w ws]; [congruence|]. simpl in Hsp.
  apply andb_prop in Hsp as [Hw Hsp].
  assert (Hh : hashes line = n).
  { apply run_length_hashes; [lia|]. intros c s' E. inversion E; subst.
    now apply space_not_hash. }
  assert (Hs : skipn n line = (w :: ws) ++ remaining) by apply skipn_repeat_app.
  repeat split; auto.
  unfold heading_start. rewrite Hh, Hs. simpl. rewrite Hw.
  destruct n; [lia|reflexivity].
Qed.

(** C5, as the code has it. A line met outside a fence that is one to six
    hashes, then white space, then a remaining text, gives one heading block,
    between the blocks of what precedes and the blocks of what follows: its
    level is the number of hashes, and its text is the remaining text with
    trailing white space trimmed. The line "# Title" gives level 1 and the
    text "Title", the line "###### Deep" level 6. *)
Theorem heading_line_trimmed :
  (forall text pre line post n ws remaining,
     splitlines text = pre ++ line :: post ->
     in_code_after pre = false ->
     line = repeat HASH n ++ ws ++ remaining ->
     (1 <= n <= 6)%nat ->
     ws <> [] -> forallb isspace ws = true ->
     lstrip remaining = remaining ->
     parse_markdown text
       = parse_lines pre ++ Heading n (rstrip remaining) :: parse_lines post)
  /\ parse_markdown (U "# Title") = [Heading 1 (U "Title")]
  /\ parse_markdown (U "###### Deep") = [Heading 6 (U "Deep")].
Proof.
  split; [|split; reflexivity].
  intros text pre line post n ws remaining Hlines Hout Hline Hn Hws Hsp Hrem.
  destruct (heading_line_shape n ws remaining Hn Hws Hsp) as (Hh & Hstart & Hskip).
  rewrite <- Hline in Hh, Hstart, Hskip.
  pose proof (splitlines_no_newline text pre line post Hlines) as Hnl.
  unfold parse_markdown.
  rewrite Hlines, parse_lines_app by auto using glue_heading.
  f_equal. unfold parse_lines. rewrite scan_heading by assumption.
  rewrite Hh, Hskip.
  replace (strip (ws ++ remaining)) with (rstrip remaining).
  - apply (scan_blocks post false [] [_]).
  - unfold strip. now rewrite lstrip_spaces, Hrem.
Qed.

Lemma heading_line_trimmed_witness :
  parse_markdown (unlines ["intro"; "###   Sub title   "; "text"]%string)
  = [Para (U "intro"); Heading 3 (U "Sub title"); Para (U "text")].
Proof.
  refine (proj1 heading_line_trimmed
            (unlines ["intro"; "###   Sub title   "; "text"]%string)
            [U "intro"] (U "###   Sub title   ") [U "text"]
            3%nat (U "   ") (U "Sub title   ") _ _ _ _ _ _ _);
    try reflexivity; [lia|discriminate].
Defined.

(** C5, as the specification words it, fails: the heading text is not the
    remaining text itself. The line "# Title " has the remaining text
    "Title ", with its trailing space, and the heading text is "Title". *)
Lemma heading_text_not_verbatim :
  ~ (forall text pre line post n ws remaining,
       splitlines text = pre ++ line :: post ->
       in_code_after pre = false ->
       line = repeat HASH n ++ ws ++ remaining ->
       (1 <= n <= 6)%nat ->
       ws <> [] -> forallb isspace ws = true ->
       lstrip remaining = remaining ->
       parse_markdown text
         = parse_lines pre ++ Heading n remaining :: parse_lines post).
Proof.
  intros H.
  specialize (H (U "# Title ") [] (U "# Title ") [] 1%nat (U " ") (U "Title ")).
  assert (E : parse_markdown (U "# Title ") = [Heading 1 (U "Title")])
    by reflexivity.
  rewrite E in H. simpl in H.
  discriminate H; try reflexivity; [lia|discriminate].
Qed.

(** ** Lists *)

Lemma item_not_blank l : is_item l = true -> is_empty (strip l) = false.
Proof.
  intros H. apply item_marker in H as (c & s & Hl & _).
  now rewrite (strip_of_lstrip l c s Hl).
Qed.

Lemma item_not_separator l :
  is_item l = true -> matches re_separator (strip l) = false.
Proof.
  intros H. destruct (matches re_separator (strip l)) eqn:E; [|reflexivity].
  apply separator_not_item in E. congruence.
Qed.

Lemma item_not_heading l : is_item l = true -> re_match re_heading l = None.
Proof.
  intros H. destruct (re_match re_heading l) eqn:E; [|reflexivity].
  apply re_heading_inv in E as [E _]. apply heading_not_item in E. congruence.
Qed.

Lemma para_break_item l : is_item l = true -> para_break l = true.
Proof.
  unfold para_break, is_item. intros ->. now rewrite orb_true_r.
Qed.

(** The list rule on a run of item lines that ends with the input or before
    a line that is no item. *)
Lemma scan_list_run l run post blocks :
  Forall (fun l => is_item l = true) (l :: run) ->
  starts_with not_item post ->
  scan (l :: run ++ post) false [] blocks
  = scan post false [] (blocks ++ [List (map item_text (l :: run))]).
Proof.
  intros H Hpost. inversion H as [|? ? Hl Hrun]; subst.
  rewrite scan_eq.
  rewrite (item_not_fence l Hl), (item_not_blank l Hl),
    (item_not_separator l Hl), (item_not_heading l Hl).
  unfold is_item in Hl. rewrite Hl. cbv zeta.
  unfold list_run. rewrite take_run_stop; [reflexivity| |exact Hpost].
  eapply Forall_impl; [|exact Hrun]. unfold not_item, is_item.
  now intros a ->.
Qed.

Lemma item_bodies run :
  Forall (fun l => is_item l = true) run ->
  exists bodies,
    Forall2 (fun l body => item_body l = Some body) run bodies /\
    map item_text run = map rstrip bodies.
Proof.
  induction 1 as [|l run Hl _ (bodies & IH1 & IH2)].
  - exists []. split; [constructor|reflexivity].
  - unfold is_item in Hl. rewrite matches_item in Hl.
    destruct (item_body l) as [body|] eqn:E; [|discriminate].
    exists (body :: bodies). split; [now constructor|].
    simpl. now rewrite (item_text_body l body E), IH2.
Qed.

(** C4. A run of item lines met outside a fence, which no item line
    precedes and no item line follows, gives one list block, between the
    blocks of what precedes and the blocks of what follows. Its items are,
    in order, the lines without their indentation, their marker (a hyphen, a
    star, or digits and a dot) and the white space after it, and with
    trailing white space trimmed. The lines "- a", "- b", "1. c" give the
    one list of "a", "b" and "c". *)
Theorem list_run_one_block :
  (forall text pre run post,
     splitlines text = pre ++ run ++ post ->
     in_code_after pre = false ->
     run <> [] ->
     Forall (fun l => is_item l = true) run ->
     (pre = [] \/ is_item (last pre []) = false) ->
     starts_with not_item post ->
     exists bodies,
       Forall2 (fun l body => item_body l = Some body) run bodies /\
       parse_markdown text
         = parse_lines pre ++ List (map rstrip bodies) :: parse_lines post)
  /\ parse_markdown (unlines ["- a"; "- b"; "1. c"]%string)
     = [List [U "a"; U "b"; U "c"]].
Proof.
  split; [|reflexivity].
  intros text pre run post Hlines Hout Hne Hrun Hpre Hpost.
  destruct (item_bodies run Hrun) as (bodies & Hb & Hmap).
  exists bodies. split; [exact Hb|].
  destruct run as [|l run]; [congruence|].
  unfold parse_markdown. rewrite Hlines, parse_lines_app; [|exact Hout|].
  - f_equal. unfold parse_lines. rewrite <- app_comm_cons.
    rewrite scan_list_run by assumption. rewrite Hmap.
    apply (scan_blocks post false [] [_]).
  - inversion Hrun; subst. rewrite <- app_comm_cons.
    destruct pre as [|x pre]; [exact I|]. split.
    + destruct Hpre as [Hpre|Hpre]; [discriminate|]. congruence.
    + intros _. now apply para_break_item.
Qed.

Lemma list_run_one_block_witness :
  exists bodies,
    Forall2 (fun l body => item_body l = Some body)
      [U "  * one  "; U "12.  two"] bodies /\
    parse_markdown (unlines ["intro"; "  * one  "; "12.  two"; ""; "- next"]%string)
    = parse_lines [U "intro"] ++ List (map rstrip bodies)
        :: parse_lines [[]; U "- next"].
Proof.
  refine (proj1 list_run_one_block
            (unlines ["intro"; "  * one  "; "12.  two"; ""; "- next"]%string)
            [U "intro"] [U "  * one  "; U "12.  two"] [[]; U "- next"]
            _ _ _ _ _ _); try reflexivity.
  - discriminate.
  - repeat constructor.
  - right. reflexivity.
Defined.

(** ** Paragraphs *)

Lemma tidy_strip l : is_empty (strip l) = false -> tidy (strip l).
Proof.
  intros H. split.
  - destruct (strip l) as [|c r] eqn:E; [discriminate|].
    exists c, r. split; [reflexivity|]. now apply strip_head_nonspace in E.
  - destruct (strip l) as [|c r] eqn:E; [discriminate|].
    destruct (exists_last (l := c :: r)) as (t & d & Ht); [discriminate|].
    exists t, d. split; [exact Ht|].
    apply (rstrip_last (lstrip l) t d). fold (strip l). congruence.
Qed.

Lemma tidy_app a b c : tidy a -> tidy c -> tidy (a ++ b ++ c).
Proof.
  intros [(x & r & -> & Hx) _] [_ (t & y & -> & Hy)]. split.
  - exists x, (r ++ b ++ t ++ [y]). auto.
  - exists ((x :: r) ++ b ++ t), y. split; [|exact Hy].
    now rewrite <- !app_assoc.
Qed.

Lemma tidy_join sep p parts :
  Forall tidy (p :: parts) -> tidy (join sep (p :: parts)).
Proof.
  revert p. induction parts as [|q parts IH]; intros p H.
  - now inversion H.
  - inversion H; subst. change (tidy (p ++ sep ++ join sep (q :: parts))).
    apply tidy_app; auto.
Qed.

(** A tidy string is its own [strip]. *)
Lemma strip_tidy s : tidy s -> strip s = s.
Proof.
  intros [(c & r & -> & Hc) (t & d & Ht & Hd)].
  unfold strip. rewrite lstrip_fix by exact Hc.
  apply rstrip_fix. intros t' d' E. rewrite Ht in E.
  apply app_inj_tail in E as [_ <-]. exact Hd.
Qed.

Lemma para_line_not_blank l : is_para_line l = true -> is_empty (strip l) = false.
Proof.
  unfold is_para_line. intros H.
  repeat (apply andb_prop in H as [H ?]).
  now destruct (is_empty (strip l)).
Qed.

Lemma not_break_not_blank l : para_break l = false -> is_empty (strip l) = false.
Proof. intros H. now apply para_line_not_blank, not_break_para_line. Qed.

(** The paragraph rule on a paragraph line and the lines after it, up to
    the end of the input or to the first line that ends a paragraph. *)
Lemma scan_para_run first cont post blocks :
  is_para_line first = true ->
  Forall (fun l => para_break l = false) cont ->
  starts_with para_break post ->
  scan (first :: cont ++ post) false [] blocks
  = scan post false []
      (blocks ++ [Para (join [SPACE] (map strip (first :: cont)))]).
Proof.
  intros Hfirst Hcont Hpost.
  assert (Htidy : tidy (join [SPACE] (map strip (first :: cont)))).
  { apply tidy_join. constructor.
    - now apply tidy_strip, para_line_not_blank.
    - apply Forall_map. eapply Forall_impl; [|exact Hcont].
      intros l Hl. now apply tidy_strip, not_break_not_blank. }
  rewrite scan_eq. unfold is_para_line in Hfirst.
  repeat (apply andb_prop in Hfirst as [Hfirst ?]).
  repeat match goal with
         | H : negb ?b = true |- _ => apply negb_true_iff in H; rewrite H
         end.
  unfold matches in *.
  destruct (re_match re_heading first); [discriminate|].
  cbv zeta. unfold para_run. rewrite take_run_stop by assumption.
  cbn [fst snd]. change ([strip first] ++ map strip cont)
    with (map strip (first :: cont)).
  now rewrite (strip_tidy _ Htidy).
Qed.

(** C3. A paragraph line met outside a fence where no paragraph is being
    gathered, with the lines after it that do not end a paragraph, up to the
    end of the input or to the first line that ends a paragraph (a blank
    line, a fence line, a heading line, an item line or a separator line),
    gives one paragraph block, whose text is these lines, each trimmed,
    joined by single spaces. The line that ends the paragraph is not
    consumed: the scan goes on from it. The lines "Hello" and "world." give
    the one paragraph "Hello world.". *)
Theorem paragraph_run_one_block :
  (forall text pre first cont post,
     splitlines text = pre ++ first :: cont ++ post ->
     in_code_after pre = false ->
     (pre = [] \/ is_para_line (last pre []) = false) ->
     is_para_line first = true ->
     Forall (fun l => para_break l = false) cont ->
     starts_with para_break post ->
     parse_markdown text
       = parse_lines pre
         ++ Para (join [SPACE] (map strip (first :: cont)))
         :: parse_lines post)
  /\ parse_markdown (unlines ["Hello"; "world."]%string)
     = [Para (U "Hello world.")].
Proof.
  split; [|reflexivity].
  intros text pre first cont post Hlines Hout Hpre Hfirst Hcont Hpost.
  unfold parse_markdown. rewrite Hlines, parse_lines_app; [|exact Hout|].
  - f_equal. unfold parse_lines. rewrite scan_para_run by assumption.
    apply (scan_blocks post false [] [_]).
  - destruct pre as [|x pre]; [exact I|]. split.
    + intros _. unfold is_para_line in Hfirst.
      apply andb_prop in Hfirst as [_ Hfirst].
      now apply negb_true_iff in Hfirst.
    + destruct Hpre as [Hpre|Hpre]; [discriminate|]. congruence.
Qed.

Lemma paragraph_run_one_block_witness :
  parse_markdown
    (unlines ["# T"; "  Hello  "; "big"; "world. "; "- item"; "tail"]%string)
  = [Heading 1 (U "T"); Para (U "Hello big world."); List [U "item"];
     Para (U "tail")].
Proof.
  refine (proj1 paragraph_run_one_block
            (unlines ["# T"; "  Hello  "; "big"; "world. "; "- item"; "tail"]%string)
            [U "# T"] (U "  Hello  ") [U "big"; U "world. "]
            [U "- item"; U "tail"] _ _ _ _ _ _); try reflexivity.
  - right. reflexivity.
  - repeat constructor.
Defined.

(** ** The blocks of any document *)

Lemma heading_start_hashes line : heading_start line = true -> (1 <= hashes line)%nat.
Proof.
  unfold heading_start. intros H. apply andb_prop in H as [H _].
  now apply Nat.leb_le in H.
Qed.

Lemma scan_ok ls : forall in_code code_buf blocks,
  Forall block_ok blocks -> Forall block_ok (scan ls in_code code_buf blocks).
Proof.
  induction ls as [ls IH] using list_len_ind.
  intros in_code code_buf blocks Hok. destruct ls as [|line ls]; [exact Hok|].
  assert (Hlt : (length ls < length (line :: ls))%nat) by (simpl; lia).
  assert (Hl : forall stop f acc,
    (length (snd (take_run stop f ls acc)) < length (line :: ls))%nat).
  { intros. pose proof (take_run_length stop f ls acc). simpl. lia. }
  assert (Hadd : forall b, block_ok b -> Forall block_ok (blocks ++ [b])).
  { intros b Hb. apply Forall_app. split; [exact Hok|]. now constructor. }
  rewrite scan_eq.
  destruct (is_fence line).
  { destruct in_code; apply IH; auto. apply Hadd. split; [simpl; tauto|].
    intros t c. apply rstrip_last. }
  destruct in_code; [now apply IH|].
  destruct (is_empty (strip line)); [now apply IH|].
  destruct (matches re_separator (strip line)).
  { apply IH; auto. apply Hadd. split; [simpl; tauto|exact I]. }
  destruct (re_match re_heading line) as [m|] eqn:Hm.
  { apply IH; auto. apply Hadd. split; [simpl; tauto|].
    apply re_heading_inv in Hm as (Hs & text & Hg).
    unfold group. rewrite Hg. cbn [Nat.pred nth]. rewrite hashes_firstn.
    split; [now apply heading_start_hashes|apply hashes_le6]. }
  destruct (matches re_item line); cbv zeta.
  - apply IH; [apply Hl|]. apply Hadd. split; [simpl; tauto|].
    destruct (take_run_split not_item item_text ls [item_text line])
      as (cont & _ & _ & _ & Hfst).
    unfold list_run. rewrite Hfst. discriminate.
  - apply IH; [apply Hl|]. apply Hadd. split; [simpl; tauto|exact I].
Qed.

(** C10. Whatever the input, every block of [parse_markdown] has one of the
    five kinds; a heading has a level from 1 to 6; a list has at least one
    item; the content of a code block does not end with white space. *)
Theorem blocks_well_formed text : Forall block_ok (parse_markdown text).
Proof. apply scan_ok. constructor. Qed.

(** ** The story *)

Lemma items_loop items : forall story,
  fold_left (fun story item => story ++ [Paragraph (bullet_text item) style_body])
    items story
  = story ++ map (fun item => Paragraph (bullet_text item) style_body) items.
Proof.
  induction items as [|item items IH]; intros story; simpl.
  - now rewrite app_nil_r.
  - now rewrite IH, <- app_assoc.
Qed.

Lemma render_block_app story b :
  render_block story b = story ++ render_block [] b.
Proof.
  destruct b; simpl; try reflexivity.
  - now destruct (is_empty content); [rewrite app_nil_r|].
  - rewrite !items_loop. now rewrite <- app_assoc.
Qed.

Lemma build_story_from blocks : forall story,
  fold_left render_block blocks story = story ++ build_story blocks.
Proof.
  unfold build_story. induction blocks as [|b blocks IH]; intros story; simpl.
  - now rewrite app_nil_r.
  - rewrite IH, (IH (render_block [] b)), (render_block_app story b).
    now rewrite app_assoc.
Qed.

(** The elements of a block stand between those of the blocks before it and
    those of the blocks after it. *)
Lemma build_story_block before b after :
  build_story (before ++ b :: after)
  = build_story before ++ render_block [] b ++ build_story after.
Proof.
  unfold build_story at 1. rewrite fold_left_app. fold (build_story before).
  change (fold_left render_block (b :: after) (build_story before))
    with (fold_left render_block after (render_block (build_story before) b)).
  rewrite build_story_from, render_block_app. now rewrite app_assoc.
Qed.

Lemma replace_char_app old new a b :
  replace_char old new (a ++ b) = replace_char old new a ++ replace_char old new b.
Proof. apply flat_map_app. Qed.

Lemma escape_cons c s : escape (c :: s) = escape [c] ++ escape s.
Proof.
  unfold escape. change (c :: s) with ([c] ++ s).
  now rewrite !replace_char_app.
Qed.

Lemma markup_char_escape c :
  replace_char BACKTICK [] (escape [c]) = markup_char c.
Proof.
  unfold markup_char, escape. cbn [replace_char flat_map app].
  destruct (c =? AMP) eqn:Ha.
  { apply N.eqb_eq in Ha. now subst c. }
  cbn [flat_map app]. destruct (c =? GT) eqn:Hg.
  { apply N.eqb_eq in Hg. subst c. reflexivity. }
  cbn [flat_map app]. destruct (c =? LT) eqn:Hl.
  { apply N.eqb_eq in Hl. now subst c. }
  cbn [flat_map app]. now destruct (c =? BACKTICK).
Qed.

(** Escaping and then dropping the backticks, as the script does, is the
    character-by-character [markup]. *)
Lemma markup_escape s : replace_char BACKTICK [] (escape s) = markup s.
Proof.
  induction s as [|c s IH]; [reflexivity|].
  rewrite escape_cons, replace_char_app, IH, markup_char_escape. reflexivity.
Qed.

Lemma markup_no_backtick s : In BACKTICK (markup s) -> False.
Proof.
  unfold markup. rewrite in_flat_map. intros (c & _ & H).
  unfold markup_char in H.
  repeat match type of H with
         | In _ (if ?b then _ else _) => destruct b eqn:?
         end;
    simpl in H; try (repeat destruct H as [H|H]; try discriminate; contradiction).
  destruct H as [H|[]]. subst c. discriminate.
Qed.

(** C8. The element of a paragraph block carries the text of the block,
    with the ampersand and the two angle brackets escaped and every backtick
    removed, in the body style. A list block gives, for each item in order,
    one such element whose text is the bullet, a space, and the text of the
    item so escaped and stripped of backticks; one spacer, of width 1 and
    height 2, follows the elements of the list. *)
Theorem paragraph_and_list_elements :
  (forall before text after,
     build_story (before ++ Para text :: after)
     = build_story before
       ++ Paragraph (markup text) style_body :: build_story after)
  /\ (forall before items after,
        build_story (before ++ List items :: after)
        = build_story before
          ++ map (fun item => Paragraph ([BULLET; SPACE] ++ markup item) style_body)
               items
          ++ Spacer 1 2 :: build_story after)
  /\ (forall s, ~ In BACKTICK (markup s)).
Proof.
  split; [|split].
  - intros before text after. rewrite build_story_block.
    cbn [render_block app]. now rewrite markup_escape.
  - intros before items after. rewrite build_story_block.
    cbn [render_block]. rewrite items_loop. cbn [app].
    rewrite <- app_assoc. do 2 f_equal.
    apply map_ext. intros item. unfold bullet_text. now rewrite markup_escape.
  - exact markup_no_backtick.
Qed.

(** C7. One heading of level 1, one paragraph, one list of three items, one
    code block that is not empty and one separator give, in this order: one
    element in the style of level 1, one in the body style, three in the
    body style that begin with the bullet, one spacer, one preformatted
    element in the code style, whose font is the monospace one, and one
    spacer. A code block whose content is empty gives no element. The
    sample document, parsed and rendered, gives these eight elements. *)
Theorem round_trip_elements :
  (forall title text a b c code,
     code <> [] ->
     build_story [Heading 1 title; Para text; List [a; b; c]; Code code; Separator]
     = [Paragraph (escape title) style_h1;
        Paragraph (replace_char BACKTICK [] (escape text)) style_body;
        Paragraph (bullet_text a) style_body;
        Paragraph (bullet_text b) style_body;
        Paragraph (bullet_text c) style_body;
        Spacer 1 2;
        Preformatted code style_code;
        Spacer 1 8])
  /\ fontName style_code = FONT_MONO
  /\ (forall before after,
        build_story (before ++ Code [] :: after)
        = build_story before ++ build_story after)
  /\ parse_markdown sample_document
     = [Heading 1 (U "Title"); Para (U "Some `text` & more.");
        List [U "one"; U "two"; U "three"]; Code (U "x = 1"); Separator]
  /\ build_story (parse_markdown sample_document)
     = [Paragraph (U "Title") style_h1;
        Paragraph (U "Some text &amp; more.") style_body;
        Paragraph ([BULLET; SPACE] ++ U "one") style_body;
        Paragraph ([BULLET; SPACE] ++ U "two") style_body;
        Paragraph ([BULLET; SPACE] ++ U "three") style_body;
        Spacer 1 2;
        Preformatted (U "x = 1") style_code;
        Spacer 1 8].
Proof.
  split; [|split; [reflexivity|split; [|split; reflexivity]]].
  - intros title text a b c code Hcode.
    destruct code as [|x code]; [congruence|]. reflexivity.
  - intros before after. now rewrite build_story_block.
Qed.

Lemma round_trip_elements_witness :
  build_story [Heading 1 (U "T"); Para (U "a < b"); List [U "x"; U "y"; U "z"];
               Code (U "print(1)"); Separator]
  = [Paragraph (U "T") style_h1;
     Paragraph (U "a &lt; b") style_body;
     Paragraph ([BULLET; SPACE] ++ U "x") style_body;
     Paragraph ([BULLET; SPACE] ++ U "y") style_body;
     Paragraph ([BULLET; SPACE] ++ U "z") style_body;
     Spacer 1 2;
     Preformatted (U "print(1)") style_code;
     Spacer 1 8].
Proof.
  refine (proj1 round_trip_elements (U "T") (U "a < b") (U "x") (U "y") (U "z")
            (U "print(1)") _).
  discriminate.
Defined.

(** ** [main] *)

(** [main] as a chain of its steps, each of which returns or raises. *)
Lemma main_usage (W : Type) (P : Platform W) (argv : list str) (w : W) :
  length argv <> 3%nat ->
  main argv w
  = match print usage_line w with
    | (Ok _, w1) => (Ok 2%Z, w1)
    | (Raise e, w1) => (Raise e, w1)
    end.
Proof.
  intros H. apply Nat.eqb_neq in H.
  unfold main, bind, ret. rewrite H. cbn [negb].
  now destruct (print usage_line w) as [[[]|e] w1].
Qed.

Lemma main_three (W : Type) (P : Platform W) (argv : list str) (w : W) :
  length argv = 3%nat ->
  main argv w
  = match path_exists (Path (nth 1 argv [])) w with
    | (Raise e, w1) => (Raise e, w1)
    | (Ok false, w1) =>
        match print (U "Input not found: " ++ path_str (Path (nth 1 argv []))) w1
        with
        | (Ok _, w2) => (Ok 1%Z, w2)
        | (Raise e, w2) => (Raise e, w2)
        end
    | (Ok true, w1) =>
        match processing argv w1 with
        | (Raise e, w2) => (Raise e, w2)
        | (Ok _, w2) =>
            match print (U "Generated: " ++ path_str (Path (nth 2 argv []))) w2
            with
            | (Ok _, w3) => (Ok 0%Z, w3)
            | (Raise e, w3) => (Raise e, w3)
            end
        end
    end.
Proof.
  intros H. unfold main, processing, bind, ret. rewrite H. cbn [Nat.eqb negb].
  destruct (path_exists (Path (nth 1 argv [])) w) as [[[|]|e0] w1];
    cbn [negb]; [| |reflexivity].
  - destruct (mkdir_parents _ w1) as [[[]|e1] wa]; [|reflexivity].
    destruct (build_pdf _ _ wa) as [[[]|e2] wb]; [|reflexivity].
    now destruct (print _ wb) as [[[]|e3] wc].
  - now destruct (print _ w1) as [[[]|e3] wc].
Qed.

Ltac same_step :=
  repeat match goal with
         | H : (_, _) = (_, _) |- _ => inversion H; subst; clear H
         | H1 : ?a = _, H2 : ?a = _ |- _ => rewrite H1 in H2
         end.

(** C9, as the code has it. With an argument count other than three, [main]
    prints the usage line and returns 2, and does nothing else. With three
    arguments and an input path that the existence test finds missing, it
    prints a line that names the path and returns 1, and does nothing
    else. Otherwise it creates the directory of the output and builds the
    document, then prints a line that names the output path and returns
    0. Each of these holds when the steps it names return. An error raised
    by any step (the existence test, a [print], the creation of the
    directory, the build) leaves [main], which then returns no exit code
    and does nothing more; and [main] raises in no other way. *)
Theorem main_exit_codes (W : Type) (P : Platform W) (argv : list str) (w : W) :
  (length argv <> 3%nat ->
     forall w',
       print usage_line w = (Ok tt, w') ->
       main argv w = (Ok 2%Z, w'))
  /\ (length argv = 3%nat ->
      forall w1,
        path_exists (Path (nth 1 argv [])) w = (Ok false, w1) ->
      forall w2,
        print (U "Input not found: " ++ path_str (Path (nth 1 argv []))) w1
        = (Ok tt, w2) ->
        main argv w = (Ok 1%Z, w2))
  /\ (length argv = 3%nat ->
      forall w1,
        path_exists (Path (nth 1 argv [])) w = (Ok true, w1) ->
      forall w2,
        processing argv w1 = (Ok tt, w2) ->
      forall w3,
        print (U "Generated: " ++ path_str (Path (nth 2 argv []))) w2
        = (Ok tt, w3) ->
        main argv w = (Ok 0%Z, w3))
  /\ (forall e w',
        main argv w = (Raise e, w') <->
        (length argv <> 3%nat /\ print usage_line w = (Raise e, w'))
        \/ (length argv = 3%nat /\
            path_exists (Path (nth 1 argv [])) w = (Raise e, w'))
        \/ (length argv = 3%nat /\ exists w1,
              path_exists (Path (nth 1 argv [])) w = (Ok false, w1) /\
              print (U "Input not found: " ++ path_str (Path (nth 1 argv []))) w1
              = (Raise e, w'))
        \/ (length argv = 3%nat /\ exists w1,
              path_exists (Path (nth 1 argv [])) w = (Ok true, w1) /\
              processing argv w1 = (Raise e, w'))
        \/ (length argv = 3%nat /\ exists w1 w2,
              path_exists (Path (nth 1 argv [])) w = (Ok true, w1) /\
              processing argv w1 = (Ok tt, w2) /\
              print (U "Generated: " ++ path_str (Path (nth 2 argv []))) w2
              = (Raise e, w'))).
Proof.
  split; [|split; [|split]].
  - intros H w' Hp. now rewrite main_usage, Hp.
  - intros H w1 Hex w2 Hp. now rewrite main_three, Hex, Hp.
  - intros H w1 Hex w2 Hproc w3 Hp. now rewrite main_three, Hex, Hproc, Hp.
  - intros e w'. destruct (Nat.eq_dec (length argv) 3) as [H|H].
    + rewrite (main_three _ _ _ _ H).
      destruct (path_exists (Path (nth 1 argv [])) w) as [[[|]|e0] w1] eqn:Hex.
      * destruct (processing argv w1) as [[[]|e1] w2] eqn:Hproc.
        -- destruct (print _ w2) as [[[]|e3] w3] eqn:Hp.
           ++ split; [discriminate|].
              intros [[? _]|[[_ E]|[(_ & ? & E & F)|[(_ & ? & E & F)
                |(_ & ? & ? & E & F & G)]]]];
                try contradiction; same_step; try discriminate.
           ++ split.
              ** intros E. do 4 right. split; [exact H|].
                 exists w1, w2. inversion E; subst. repeat split; auto.
              ** intros [[? _]|[[_ E]|[(_ & ? & E & F)|[(_ & ? & E & F)
                   |(_ & ? & ? & E & F & G)]]]];
                   try contradiction; same_step; try discriminate;
                   reflexivity.
        -- split.
           ++ intros E. do 3 right. left. split; [exact H|].
              exists w1. inversion E; subst. repeat split; auto.
           ++ intros [[? _]|[[_ E]|[(_ & ? & E & F)|[(_ & ? & E & F)
                |(_ & ? & ? & E & F & G)]]]];
                try contradiction; same_step; try discriminate;
                reflexivity.
      * destruct (print _ w1) as [[[]|e3] w2] eqn:Hp.
        -- split; [discriminate|].
           intros [[? _]|[[_ E]|[(_ & ? & E & F)|[(_ & ? & E & F)
             |(_ & ? & ? & E & F & G)]]]];
             try contradiction; same_step; try discriminate.
        -- split.
           ++ intros E. do 2 right. left. split; [exact H|].
              exists w1. inversion E; subst. repeat split; auto.
           ++ intros [[? _]|[[_ E]|[(_ & ? & E & F)|[(_ & ? & E & F)
                |(_ & ? & ? & E & F & G)]]]];
                try contradiction; same_step; try discriminate;
                reflexivity.
      * split.
        -- intros E. right. left. inversion E; subst. now split.
        -- intros [[? _]|[[_ E]|[(_ & ? & E & F)|[(_ & ? & E & F)
             |(_ & ? & ? & E & F & G)]]]];
             try contradiction; same_step; try discriminate;
               reflexivity.
    + rewrite (main_usage _ _ _ _ H).
      destruct (print usage_line w) as [[[]|e3] w1] eqn:Hp.
      * split; [discriminate|].
        intros [[_ E]|[[? _]|[(? & _)|[(? & _)|(? & _)]]]];
          try contradiction; discriminate.
      * split.
        -- intros E. left. inversion E; subst. now split.
        -- intros [[_ E]|[[? _]|[(? & _)|[(? & _)|(? & _)]]]];
             try contradiction; inversion E; subst; reflexivity.
Qed.

Lemma main_exit_codes_witness :
  main sample_argv sample_world
  = (Ok 0%Z,
     World ((U "out/guide.pdf", File None) :: (U "out", Dir)
              :: (U "docs/guide.md", File (Some sample_document))
              :: fonts_installed)
           [U "Generated: out/guide.pdf"]).
Proof.
  refine (proj1 (proj2 (proj2
            (main_exit_codes world small_platform sample_argv sample_world)))
            _ sample_world _
            (World ((U "out/guide.pdf", File None) :: (U "out", Dir)
                      :: (U "docs/guide.md", File (Some sample_document))
                      :: fonts_installed) [])
            _ _ _); reflexivity.
Defined.

(** C9, as the specification words it, fails: with three arguments and an
    input path that exists, [main] need not return 0. Here the input path is
    a directory: reading it raises, and the error leaves [main]. *)
Lemma main_may_raise :
  ~ (forall (W : Type) (P : Platform W) (argv : list str) (w w1 : W),
       length argv = 3%nat ->
       path_exists (Path (nth 1 argv [])) w = (Ok true, w1) ->
       exists w', main argv w = (Ok 0%Z, w')).
Proof.
  intros H.
  destruct (H world small_platform
              [U "generate_pdf.py"; U "docs"; U "out/guide.pdf"]
              (World ((U "docs", Dir) :: fonts_installed) [])
              (World ((U "docs", Dir) :: fonts_installed) []))
    as (w' & Hw'); try reflexivity.
  vm_compute in Hw'. discriminate Hw'.
Qed.

(** The other steps of [main] raise as well. A name of 5000 letters is too
    long for the existence test, which raises; a missing input whose name
    holds a byte that is no UTF-8 cannot be printed, and the message
    raises. Neither run returns an exit code. *)
Example main_name_too_long :
  main [U "generate_pdf.py"; repeat 97 5000; U "out.pdf"]
       (World fonts_installed [])
  = (Raise OSError, World fonts_installed []).
Proof. vm_compute. reflexivity. Qed.

Example main_name_not_printable :
  main [U "generate_pdf.py"; [109; 56553; 46; 109; 100]; U "out.pdf"]
       (World fonts_installed [])
  = (Raise UnicodeEncodeError, World fonts_installed []).
Proof. vm_compute. reflexivity. Qed.

(** ** Line endings and blank lines *)

Lemma splitlines_from_line l : forall cur s,
  no_linebreak l = true ->
  splitlines_from cur false (l ++ s) = splitlines_from (cur ++ l) false s.
Proof.
  induction l as [|c l IH]; intros cur s H.
  - now rewrite app_nil_r.
  - simpl in H. apply andb_prop in H as [Hc H]. apply negb_true_iff in Hc.
    cbn [app splitlines_from andb]. rewrite Hc, IH by exact H.
    now rewrite <- app_assoc.
Qed.

Lemma splitlines_from_lf cur s :
  splitlines_from cur false (LF :: s) = cur :: splitlines_from [] false s.
Proof. reflexivity. Qed.

Lemma splitlines_from_cr_lf cur s :
  splitlines_from cur false (CR :: LF :: s) = cur :: splitlines_from [] false s.
Proof. reflexivity. Qed.

Lemma splitlines_from_crlf ls : forall cur,
  Forall (fun l => no_linebreak l = true) ls ->
  splitlines_from cur false (join [CR; LF] ls)
  = splitlines_from cur false (join [LF] ls).
Proof.
  induction ls as [|l ls IH]; intros cur H; [reflexivity|].
  inversion H as [|? ? Hl Hls]; subst.
  destruct ls as [|l2 ls]; [reflexivity|].
  change (join [CR; LF] (l :: l2 :: ls))
    with (l ++ [CR; LF] ++ join [CR; LF] (l2 :: ls)).
  change (join [LF] (l :: l2 :: ls)) with (l ++ [LF] ++ join [LF] (l2 :: ls)).
  rewrite (splitlines_from_line l cur ([CR; LF] ++ _) Hl).
  rewrite (splitlines_from_line l cur ([LF] ++ _) Hl). cbn [app].
  rewrite splitlines_from_lf, splitlines_from_cr_lf. f_equal. now apply IH.
Qed.

(** What [splitlines] returns for lines joined by line feeds: the lines,
    but for an empty last line. *)
Lemma splitlines_from_join ls : forall cur l,
  Forall (fun l => no_linebreak l = true) (l :: ls) ->
  exists tail,
    (tail = [] \/ tail = [[]]) /\
    (cur ++ l) :: ls = splitlines_from cur false (join [LF] (l :: ls)) ++ tail.
Proof.
  induction ls as [|l2 ls IH]; intros cur l H;
    inversion H as [|? ? Hl Hls]; subst.
  - cbn [join].
    replace (splitlines_from cur false l)
      with (splitlines_from cur false (l ++ [])) by now rewrite app_nil_r.
    rewrite splitlines_from_line by exact Hl. cbn [splitlines_from].
    destruct (cur ++ l) as [|c r]; [exists [[]]|exists []]; auto.
  - change (join [LF] (l :: l2 :: ls)) with (l ++ [LF] ++ join [LF] (l2 :: ls)).
    rewrite splitlines_from_line by exact Hl. cbn [app].
    rewrite splitlines_from_lf.
    destruct (IH [] l2 Hls) as (tail & Ht & E).
    exists tail. split; [exact Ht|].
    rewrite <- app_comm_cons. f_equal. exact E.
Qed.

Lemma splitlines_from_final_newline s : forall cur after_cr,
  exists tail,
    (tail = [] \/ tail = [[]]) /\
    splitlines_from cur after_cr (s ++ [LF])
    = splitlines_from cur after_cr s ++ tail.
Proof.
  induction s as [|c s IH]; intros cur after_cr.
  - cbn [app]. destruct after_cr.
    + exists []. rewrite app_nil_r. auto.
    + rewrite splitlines_from_lf.
      destruct cur as [|x cur]; [exists [[]]|exists []]; auto.
  - cbn [app splitlines_from].
    destruct (after_cr && (c =? LF)); [apply IH|].
    destruct (islinebreak c); [|apply IH].
    destruct (IH [] (c =? CR)) as (tail & Ht & E).
    exists tail. split; [exact Ht|]. now rewrite E.
Qed.

Lemma blank_not_fence l : is_blank l = true -> is_fence l = false.
Proof.
  unfold is_blank, is_fence. now destruct (strip l).
Qed.

Lemma scan_blank tail : forall in_code code_buf blocks,
  Forall (fun l => is_blank l = true) tail ->
  scan tail in_code code_buf blocks = blocks.
Proof.
  induction tail as [|l tail IH]; intros in_code code_buf blocks H;
    [reflexivity|].
  inversion H as [|? ? Hl Htail]; subst.
  rewrite scan_eq, (blank_not_fence l Hl). unfold is_blank in Hl. rewrite Hl.
  destruct in_code; now apply IH.
Qed.

Lemma glue_blank pre tail :
  Forall (fun l => is_blank l = true) tail -> glue pre tail.
Proof.
  intros H. destruct tail as [|t tail]; [now destruct pre|].
  inversion H as [|? ? Ht _]; subst. apply glue_boundary.
  - unfold para_break. unfold is_blank in Ht. now rewrite Ht.
  - destruct (is_item t) eqn:E; [|reflexivity].
    apply item_not_blank in E. unfold is_blank in Ht. congruence.
Qed.

Lemma parse_lines_trailing_blank ls tail :
  Forall (fun l => is_blank l = true) tail ->
  parse_lines (ls ++ tail) = parse_lines ls.
Proof.
  intros H. unfold parse_lines.
  rewrite scan_app by now apply glue_blank. now apply scan_blank.
Qed.

Lemma parse_lines_leading_blank head ls :
  Forall (fun l => is_blank l = true) head ->
  parse_lines (head ++ ls) = parse_lines ls.
Proof.
  induction 1 as [|l head Hl _ IH]; [reflexivity|].
  unfold parse_lines in *. rewrite <- app_comm_cons, scan_eq.
  rewrite (blank_not_fence l Hl). unfold is_blank in Hl. now rewrite Hl.
Qed.

Lemma tail_blank tail :
  tail = [] \/ tail = [[]] -> Forall (fun l => is_blank l = true) tail.
Proof. intros [->| ->]; repeat constructor. Qed.

(** X1. A document given by its lines, joined by line feeds, is parsed as
    its lines are, and the blocks are the same when the lines are joined by
    carriage return and line feed instead. *)
Theorem line_endings_same_blocks ls :
  Forall (fun l => no_linebreak l = true) ls ->
  parse_markdown (join [LF] ls) = parse_lines ls /\
  parse_markdown (join [CR; LF] ls) = parse_lines ls.
Proof.
  intros H. unfold parse_markdown, splitlines.
  rewrite splitlines_from_crlf by exact H.
  assert (E : parse_lines (splitlines_from [] false (join [LF] ls))
              = parse_lines ls).
  { destruct ls as [|l ls]; [reflexivity|].
    destruct (splitlines_from_join ls [] l H) as (tail & Ht & E).
    cbn [app] in E.
    rewrite <- (parse_lines_trailing_blank _ tail (tail_blank tail Ht)).
    now f_equal. }
  now rewrite E.
Qed.

Lemma line_endings_same_blocks_witness :
  parse_markdown (join [CR; LF] [U "# T"; U "a"; U "b"; []])
  = [Heading 1 (U "T"); Para (U "a b")].
Proof.
  refine (proj2 (line_endings_same_blocks [U "# T"; U "a"; U "b"; []] _)).
  repeat constructor.
Defined.

(** X2. A line feed added at the end of the text changes no block. *)
Theorem final_newline_same_blocks text :
  parse_markdown (text ++ [LF]) = parse_markdown text.
Proof.
  unfold parse_markdown, splitlines.
  destruct (splitlines_from_final_newline text [] false) as (tail & Ht & E).
  rewrite E. now apply parse_lines_trailing_blank, tail_blank.
Qed.

(** X3. Blank lines before the first line and after the last line of a
    document change no block; a document of blank lines has no block. *)
Theorem outer_blank_lines_ignored text head ls tail :
  splitlines text = head ++ ls ++ tail ->
  Forall (fun l => is_blank l = true) head ->
  Forall (fun l => is_blank l = true) tail ->
  parse_markdown text = parse_lines ls.
Proof.
  intros E Hh Ht. unfold parse_markdown. rewrite E.
  rewrite parse_lines_leading_blank by exact Hh.
  now apply parse_lines_trailing_blank.
Qed.

Lemma outer_blank_lines_ignored_witness :
  parse_markdown (unlines [""; "   "; "text"; ""; "- a"; " "; ""]%string)
  = parse_lines [U "text"; []; U "- a"].
Proof.
  refine (outer_blank_lines_ignored
            (unlines [""; "   "; "text"; ""; "- a"; " "; ""]%string)
            [[]; U "   "] [U "text"; []; U "- a"] [U " "] _ _ _);
    [reflexivity| |]; repeat constructor.
Defined.

(** ** The heading and separator tests, exactly *)

Lemma firstn_run_length c s : forall hi,
  firstn (run_length (lit c) hi s) s = repeat c (run_length (lit c) hi s).
Proof.
  induction s as [|x s IH]; intros hi; [reflexivity|].
  cbn [run_length]. destruct (lit c x) eqn:Hx; [|reflexivity].
  destruct (negb (bounded hi)); [|reflexivity].
  cbn [andb firstn repeat]. apply N.eqb_eq in Hx. subst x. now rewrite IH.
Qed.

Lemma heading_start_shape line :
  heading_start line = true ->
  exists n w rest,
    line = repeat HASH n ++ w :: rest /\ (1 <= n <= 6)%nat /\ isspace w = true.
Proof.
  intros H. pose proof (heading_start_hashes line H) as Hn.
  unfold heading_start in H. apply andb_prop in H as [_ H].
  destruct (skipn (hashes line) line) as [|w rest] eqn:E; [discriminate|].
  exists (hashes line), w, rest. repeat split; auto using hashes_le6.
  rewrite <- (firstn_skipn (hashes line) line) at 1. rewrite E.
  unfold hashes. now rewrite firstn_run_length.
Qed.

Lemma shape_heading_start n w rest :
  (1 <= n <= 6)%nat -> isspace w = true ->
  heading_start (repeat HASH n ++ w :: rest) = true.
Proof.
  intros Hn Hw.
  apply (heading_line_shape n [w] rest Hn); [discriminate|].
  simpl. now rewrite Hw.
Qed.

(** X4. For a line of the input, the heading test succeeds exactly when the
    line is one to six hashes followed at once by a white-space
    character. A line that begins with a hash and fails the test (seven
    hashes or more, or no white space after the hashes) is a paragraph
    line, and it does not end a paragraph that is being gathered. *)
Theorem heading_test_exact text line :
  In line (splitlines text) ->
  (matches re_heading line = true <->
   exists n w rest,
     line = repeat HASH n ++ w :: rest /\ (1 <= n <= 6)%nat /\ isspace w = true)
  /\ (forall rest,
        line = HASH :: rest -> matches re_heading line = false ->
        is_para_line line = true /\ para_break line = false).
Proof.
  intros Hin.
  assert (Hnl : no_newline line = true)
    by now apply no_linebreak_no_newline, (splitlines_no_linebreak text).
  assert (Hiff : matches re_heading line = heading_start line).
  { destruct (heading_start line) eqn:Hs.
    - unfold matches. now destruct (re_heading_ok line Hnl Hs) as (m & -> & _).
    - destruct (matches re_heading line) eqn:Hm; [|reflexivity].
      apply heading_matches_start in Hm. congruence. }
  split.
  - rewrite Hiff. split; [apply heading_start_shape|].
    intros (n & w & rest & -> & Hn & Hw). now apply shape_heading_start.
  - intros rest -> Hm.
    assert (Hstrip : strip (HASH :: rest) = HASH :: rstrip rest)
      by (apply strip_of_lstrip; now apply lstrip_fix).
    assert (Hitem : matches re_item (HASH :: rest) = false).
    { destruct (matches re_item (HASH :: rest)) eqn:E; [|reflexivity].
      apply item_marker in E as (c & s' & Hl & Hc & _).
      rewrite lstrip_fix in Hl by reflexivity. inversion Hl; subst c.
      destruct Hc as [Hc|[Hc|Hc]]; discriminate. }
    assert (Hsep : matches re_separator (strip (HASH :: rest)) = false).
    { destruct (matches re_separator (strip (HASH :: rest))) eqn:E;
        [|reflexivity].
      apply matches_separator_inv in E as (s' & E). rewrite Hstrip in E.
      discriminate. }
    unfold is_para_line, para_break, is_fence.
    rewrite matches_heading_start, <- Hiff, Hm, Hitem, Hsep, Hstrip.
    split; reflexivity.
Qed.

Lemma heading_test_exact_witness :
  is_para_line (U "#######  seven") = true /\
  para_break (U "#######  seven") = false.
Proof.
  refine (proj2 (heading_test_exact (unlines ["a"; "#######  seven"]%string)
                   (U "#######  seven") _) _ eq_refl eq_refl).
  right. left. reflexivity.
Defined.

Lemma hyphen_run_end n c s g :
  lit HYPHEN c = true -> exec Eol (MState n (c :: s) g) Some = None.
Proof.
  unfold lit. intros H. apply N.eqb_eq in H. subst c.
  cbn [exec rest]. destruct s; reflexivity.
Qed.

Lemma matches_separator_shape s :
  matches re_separator s = true ->
  exists n, (3 <= n)%nat /\
            (s = repeat HYPHEN n \/ s = repeat HYPHEN n ++ [LF]).
Proof.
  intros H. destruct (matches_separator_inv s H) as (s' & ->).
  revert H. unfold matches, re_match, re_separator, plus.
  cbn [exec pos rest groups]. unfold lit at 1 2. rewrite N.eqb_refl.
  cbn [pos rest groups].
  rewrite rep_greedy by (intros; now apply hyphen_run_end).
  set (k := run_length (lit HYPHEN) None (HYPHEN :: s')).
  destruct (1 <=? k)%nat eqn:Hk; [|discriminate].
  cbn [exec rest].
  destruct (at_end_or_before_final_newline (skipn k (HYPHEN :: s'))) eqn:He;
    [|discriminate].
  intros _. exists (2 + k)%nat. apply Nat.leb_le in Hk. split; [lia|].
  assert (E : HYPHEN :: s' = repeat HYPHEN k ++ skipn k (HYPHEN :: s')).
  { rewrite <- (firstn_skipn k (HYPHEN :: s')) at 1. f_equal.
    apply firstn_run_length. }
  cbn [Nat.add repeat]. rewrite E.
  destruct (skipn k (HYPHEN :: s')) as [|c [|d r]]; try discriminate.
  - left. now rewrite app_nil_r.
  - right. cbn [at_end_or_before_final_newline] in He.
    apply N.eqb_eq in He. now subst c.
Qed.

(** X5. The separator test succeeds exactly for the lines whose trimmed
    content is three hyphens or more and nothing else. *)
Theorem separator_test_exact line :
  matches re_separator (strip line) = true <->
  exists n, (3 <= n)%nat /\ strip line = repeat HYPHEN n.
Proof.
  split.
  - intros H. apply matches_separator_shape in H as (n & Hn & [H|H]).
    + eauto.
    + unfold strip in H. apply rstrip_last in H. discriminate.
  - intros (n & Hn & ->). now apply matches_separator_hyphens.
Qed.

(** ** Counting blocks *)

Lemma fence_lines_app a b : fence_lines (a ++ b) = (fence_lines a + fence_lines b)%nat.
Proof. unfold fence_lines. now rewrite filter_app, length_app. Qed.

Lemma fence_lines_none ls :
  Forall (fun l => is_fence l = false) ls -> fence_lines ls = 0%nat.
Proof.
  unfold fence_lines. induction 1 as [|l ls Hl _ IH]; [reflexivity|].
  simpl. now rewrite Hl.
Qed.

Lemma code_blocks_snoc blocks b :
  code_blocks (blocks ++ [b])
  = (code_blocks blocks + if is_code b then 1 else 0)%nat.
Proof.
  unfold code_blocks. rewrite filter_app, length_app. simpl.
  now destruct (is_code b).
Qed.

Lemma not_break_not_fence l : para_break l = false -> is_fence l = false.
Proof.
  unfold para_break, is_fence. intros H.
  repeat (apply orb_false_elim in H as [H ?]). assumption.
Qed.

Lemma not_item_false l : not_item l = false -> is_item l = true.
Proof. unfold not_item, is_item. now destruct (matches re_item l). Qed.

(** What is left after an inner loop has as many fence lines as before. *)
Lemma take_run_fences stop f ls acc :
  (forall l, stop l = false -> is_fence l = false) ->
  fence_lines (snd (take_run stop f ls acc)) = fence_lines ls.
Proof.
  intros Hstop.
  destruct (take_run_split stop f ls acc) as (cont & E & Hc & _).
  rewrite E at 2. rewrite fence_lines_app, (fence_lines_none cont); [reflexivity|].
  eapply Forall_impl; [|exact Hc]. exact Hstop.
Qed.

Lemma scan_code_blocks ls : forall in_code code_buf blocks,
  code_blocks (scan ls in_code code_buf blocks)
  = (code_blocks blocks
     + (fence_lines ls + if in_code then 1 else 0) / 2)%nat.
Proof.
  induction ls as [ls IH] using list_len_ind.
  intros in_code code_buf blocks.
  destruct ls as [|line ls].
  { simpl. destruct in_code; simpl; lia. }
  assert (Hlt : (length ls < length (line :: ls))%nat) by (simpl; lia).
  assert (Hl : forall stop f acc,
    (length (snd (take_run stop f ls acc)) < length (line :: ls))%nat).
  { intros. pose proof (take_run_length stop f ls acc). simpl. lia. }
  rewrite scan_eq. unfold fence_lines at 1. cbn [filter].
  destruct (is_fence line) eqn:Hf; cbn [length]; fold (fence_lines ls).
  { destruct in_code; rewrite IH by exact Hlt.
    - rewrite code_blocks_snoc. cbn [is_code].
      replace (S (fence_lines ls) + 1)%nat with (fence_lines ls + 0 + 1 * 2)%nat
        by lia.
      rewrite Nat.div_add by lia. lia.
    - f_equal. f_equal. lia. }
  destruct in_code; [now apply IH|].
  destruct (is_empty (strip line)); [now apply IH|].
  destruct (matches re_separator (strip line)).
  { rewrite IH, code_blocks_snoc by exact Hlt. cbn [is_code]. lia. }
  destruct (re_match re_heading line).
  { rewrite IH, code_blocks_snoc by exact Hlt. cbn [is_code]. lia. }
  destruct (matches re_item line); cbv zeta.
  - rewrite IH, code_blocks_snoc by apply Hl. cbn [is_code].
    unfold list_run. rewrite take_run_fences; [lia|].
    intros l Hl'. now apply item_not_fence, not_item_false.
  - rewrite IH, code_blocks_snoc by apply Hl. cbn [is_code].
    unfold para_run. rewrite take_run_fences; [lia|].
    exact not_break_not_fence.
Qed.

(** X6. The code blocks of a document are as many as half its fence lines,
    rounded down: fence lines pair up in order, and a last fence line
    without a partner gives no block. *)
Theorem code_blocks_half_fence_lines text :
  code_blocks (parse_markdown text) = (fence_lines (splitlines text) / 2)%nat.
Proof.
  unfold parse_markdown, parse_lines. rewrite scan_code_blocks.
  cbn [code_blocks filter length]. now rewrite Nat.add_0_r.
Qed.

Lemma scan_length ls : forall in_code code_buf blocks,
  (length (scan ls in_code code_buf blocks) <= length blocks + length ls)%nat.
Proof.
  induction ls as [ls IH] using list_len_ind.
  intros in_code code_buf blocks.
  destruct ls as [|line ls]; [simpl; lia|].
  assert (Hlt : (length ls < length (line :: ls))%nat) by (simpl; lia).
  assert (Hl : forall stop f acc,
    (length (snd (take_run stop f ls acc)) < length (line :: ls))%nat).
  { intros. pose proof (take_run_length stop f ls acc). simpl. lia. }
  rewrite scan_eq.
  repeat match goal with
         | |- context [if ?b then _ else _] => destruct b
         | |- context [match ?o with Some _ => _ | None => _ end] => destruct o
         end; cbv zeta;
    match goal with
    | |- (length (scan ?r ?ic ?buf ?bl) <= _)%nat =>
        let H := fresh in
        assert (H : (length r < length (line :: ls))%nat)
          by first [exact Hlt | apply Hl];
        pose proof (IH r H ic buf bl) as Hle;
        try rewrite length_app in Hle; simpl in *; lia
    end.
Qed.

(** X7. A document has at most as many blocks as lines. *)
Theorem blocks_at_most_lines text :
  (length (parse_markdown text) <= length (splitlines text))%nat.
Proof. apply (scan_length (splitlines text) false [] []). Qed.

(** ** The texts of the blocks *)

Lemma strip_strip l : strip (strip l) = strip l.
Proof.
  destruct (lstrip l) as [|a r] eqn:E.
  - now rewrite (strip_blank l E).
  - rewrite (strip_of_lstrip l a r E). unfold strip.
    rewrite lstrip_fix by now apply lstrip_head in E.
    rewrite <- (rstrip_cons_nonspace a r) by now apply lstrip_head in E.
    apply rstrip_idem.
Qed.

Lemma tidy_trimmed s : tidy s -> trimmed s.
Proof. apply strip_tidy. Qed.

Lemma item_text_trimmed l : is_item l = true -> trimmed (item_text l).
Proof.
  unfold is_item. rewrite matches_item.
  destruct (item_body l) as [body|] eqn:E; [|discriminate]. intros _.
  rewrite (item_text_body l body E). unfold item_body in E.
  destruct (marker_end (lstrip l)) as [[|w s]|]; try discriminate.
  destruct (isspace w); [|discriminate]. inversion E; subst.
  apply (strip_strip s).
Qed.

Lemma scan_trimmed ls : forall in_code code_buf blocks,
  Forall texts_trimmed blocks ->
  Forall texts_trimmed (scan ls in_code code_buf blocks).
Proof.
  induction ls as [ls IH] using list_len_ind.
  intros in_code code_buf blocks Hok. destruct ls as [|line ls]; [exact Hok|].
  assert (Hlt : (length ls < length (line :: ls))%nat) by (simpl; lia).
  assert (Hl : forall stop f acc,
    (length (snd (take_run stop f ls acc)) < length (line :: ls))%nat).
  { intros. pose proof (take_run_length stop f ls acc). simpl. lia. }
  assert (Hadd : forall b, texts_trimmed b -> Forall texts_trimmed (blocks ++ [b])).
  { intros b Hb. apply Forall_app. split; [exact Hok|]. now constructor. }
  rewrite scan_eq.
  destruct (is_fence line).
  { destruct in_code; apply IH; auto. now apply Hadd. }
  destruct in_code; [now apply IH|].
  destruct (is_empty (strip line)) eqn:Hblank; [now apply IH|].
  destruct (matches re_separator (strip line)).
  { apply IH; auto. now apply Hadd. }
  destruct (re_match re_heading line) as [m|].
  { apply IH; auto. apply Hadd. apply strip_strip. }
  destruct (matches re_item line) eqn:Hitem; cbv zeta.
  - apply IH; [apply Hl|]. apply Hadd. cbn [texts_trimmed].
    destruct (take_run_split not_item item_text ls [item_text line])
      as (cont & _ & Hcont & _ & Hfst).
    unfold list_run. rewrite Hfst. apply Forall_app. split.
    + constructor; [now apply item_text_trimmed|constructor].
    + apply Forall_map. eapply Forall_impl; [|exact Hcont].
      intros l Hl'. now apply item_text_trimmed, not_item_false.
  - apply IH; [apply Hl|]. apply Hadd. cbn [texts_trimmed].
    destruct (take_run_split para_break strip ls [strip line])
      as (cont & _ & Hcont & _ & Hfst).
    unfold para_run. rewrite Hfst.
    assert (Htidy : tidy (join [SPACE] ([strip line] ++ map strip cont))).
    { apply (tidy_join [SPACE] (strip line) (map strip cont)). constructor.
      - now apply tidy_strip.
      - apply Forall_map. eapply Forall_impl; [|exact Hcont].
        intros l Hl'. now apply tidy_strip, not_break_not_blank. }
    now rewrite (strip_tidy _ Htidy).
Qed.

(** X8. Whatever the input, the text of every heading and every list item
    has no white space at either end, and the text of every paragraph is
    not empty and has no white space at either end. *)
Theorem block_texts_trimmed text : Forall texts_trimmed (parse_markdown text).
Proof. apply scan_trimmed. constructor. Qed.

Lemma no_linebreak_app a b :
  no_linebreak (a ++ b) = no_linebreak a && no_linebreak b.
Proof. apply forallb_app. Qed.

Lemma no_linebreak_dropwhile p s :
  no_linebreak s = true -> no_linebreak (dropwhile p s) = true.
Proof.
  induction s as [|c s IH]; [reflexivity|]. intros H. simpl.
  destruct (p c); [|exact H].
  simpl in H. apply andb_prop in H as [_ H]. auto.
Qed.

Lemma no_linebreak_rev s : no_linebreak (rev s) = no_linebreak s.
Proof.
  induction s as [|c s IH]; [reflexivity|].
  simpl. rewrite no_linebreak_app, IH. simpl. rewrite andb_true_r.
  apply andb_comm.
Qed.

Lemma no_linebreak_rstrip s : no_linebreak s = true -> no_linebreak (rstrip s) = true.
Proof.
  intros H. unfold rstrip. rewrite no_linebreak_rev.
  apply no_linebreak_dropwhile. now rewrite no_linebreak_rev.
Qed.

Lemma no_linebreak_strip s : no_linebreak s = true -> no_linebreak (strip s) = true.
Proof. intros H. now apply no_linebreak_rstrip, no_linebreak_dropwhile. Qed.

Lemma no_linebreak_skipn n s : no_linebreak s = true -> no_linebreak (skipn n s) = true.
Proof.
  intros H. rewrite <- (firstn_skipn n s), no_linebreak_app in H.
  now apply andb_prop in H as [_ H].
Qed.

Lemma no_linebreak_join parts :
  Forall (fun p => no_linebreak p = true) parts ->
  no_linebreak (join [SPACE] parts) = true.
Proof.
  induction 1 as [|p parts Hp Hparts IH]; [reflexivity|].
  destruct parts as [|q parts]; [exact Hp|].
  change (join [SPACE] (p :: q :: parts))
    with (p ++ [SPACE] ++ join [SPACE] (q :: parts)).
  now rewrite !no_linebreak_app, Hp, IH.
Qed.

Lemma item_text_single_line l :
  no_linebreak l = true -> is_item l = true -> no_linebreak (item_text l) = true.
Proof.
  intros Hl. unfold is_item, matches.
  pose proof (re_item_spec l) as H.
  destruct (re_match re_item l) as [m|] eqn:E; [|discriminate]. intros _.
  destruct H as [Hb _]. rewrite (item_text_body l _ Hb).
  apply no_linebreak_rstrip. rewrite (re_match_rest _ _ _ E).
  now apply no_linebreak_skipn.
Qed.

Lemma scan_single_line ls : forall in_code code_buf blocks,
  Forall (fun l => no_linebreak l = true) ls ->
  Forall texts_single_line blocks ->
  Forall texts_single_line (scan ls in_code code_buf blocks).
Proof.
  induction ls as [ls IH] using list_len_ind.
  intros in_code code_buf blocks Hls Hok.
  destruct ls as [|line ls]; [exact Hok|].
  inversion Hls as [|? ? Hline Hrest]; subst.
  assert (Hlt : (length ls < length (line :: ls))%nat) by (simpl; lia).
  assert (Hl : forall stop f acc,
    (length (snd (take_run stop f ls acc)) < length (line :: ls))%nat).
  { intros. pose proof (take_run_length stop f ls acc). simpl. lia. }
  assert (Hsuffix : forall stop f acc,
    Forall (fun l => no_linebreak l = true) (snd (take_run stop f ls acc))).
  { intros. destruct (take_run_split stop f ls acc) as (cont & E & _).
    rewrite E in Hrest. now apply Forall_app in Hrest as [_ Hrest]. }
  assert (Hadd : forall b, texts_single_line b ->
                           Forall texts_single_line (blocks ++ [b])).
  { intros b Hb. apply Forall_app. split; [exact Hok|]. now constructor. }
  rewrite scan_eq.
  destruct (is_fence line).
  { destruct in_code; apply IH; auto. now apply Hadd. }
  destruct in_code; [now apply IH|].
  destruct (is_empty (strip line)); [now apply IH|].
  destruct (matches re_separator (strip line)).
  { apply IH; auto. now apply Hadd. }
  destruct (re_match re_heading line) as [m|] eqn:Hm.
  { apply IH; auto. apply Hadd. cbn [texts_single_line].
    apply no_linebreak_strip.
    pose proof (re_heading_inv line m Hm) as [Hs _].
    destruct (re_heading_ok line (no_linebreak_no_newline line Hline) Hs)
      as (m' & Hm' & Hg).
    rewrite Hm in Hm'. inversion Hm'; subst m'.
    unfold group. rewrite Hg. cbn [Nat.pred nth].
    now apply no_linebreak_dropwhile, no_linebreak_skipn. }
  destruct (matches re_item line) eqn:Hitem; cbv zeta.
  - apply IH; [apply Hl|apply Hsuffix|]. apply Hadd. cbn [texts_single_line].
    destruct (take_run_split not_item item_text ls [item_text line])
      as (cont & E & Hcont & _ & Hfst).
    unfold list_run. rewrite Hfst. apply Forall_app. split.
    + constructor; [now apply item_text_single_line|constructor].
    + apply Forall_map. rewrite E in Hrest.
      apply Forall_app in Hrest as [Hrest _].
      rewrite Forall_forall in *. intros l Hin.
      apply item_text_single_line; [now apply Hrest|].
      now apply not_item_false, Hcont.
  - apply IH; [apply Hl|apply Hsuffix|]. apply Hadd. cbn [texts_single_line].
    destruct (take_run_split para_break strip ls [strip line])
      as (cont & E & _ & _ & Hfst).
    unfold para_run. rewrite Hfst.
    apply no_linebreak_strip, no_linebreak_join.
    apply Forall_app. split.
    + constructor; [now apply no_linebreak_strip|constructor].
    + apply Forall_map. rewrite E in Hrest.
      apply Forall_app in Hrest as [Hrest _].
      eapply Forall_impl; [|exact Hrest]. intros l. apply no_linebreak_strip.
Qed.

(** X9. Whatever the input, the text of every heading, every paragraph and
    every list item holds no line boundary: only the content of a code
    block spans several lines. *)
Theorem block_texts_single_line text :
  Forall texts_single_line (parse_markdown text).
Proof.
  apply scan_single_line; [|constructor].
  apply Forall_forall. intros l. apply splitlines_no_linebreak.
Qed.

(** ** More on the story *)

Lemma build_story_concat blocks1 blocks2 :
  build_story (blocks1 ++ blocks2) = build_story blocks1 ++ build_story blocks2.
Proof.
  unfold build_story at 1. rewrite fold_left_app. apply build_story_from.
Qed.

(** X10. The story of a document in two parts is the story of the first
    part followed by the story of the second: the elements of a block do
    not depend on the blocks around it. *)
Theorem build_story_app blocks1 blocks2 :
  build_story (blocks1 ++ blocks2) = build_story blocks1 ++ build_story blocks2.
Proof. apply build_story_concat. Qed.

Lemma escape_char_escape c : escape [c] = escape_char c.
Proof.
  unfold escape_char, escape. cbn [replace_char flat_map app].
  destruct (c =? AMP) eqn:Ha.
  { apply N.eqb_eq in Ha. now subst c. }
  cbn [flat_map app]. destruct (c =? GT) eqn:Hg.
  { apply N.eqb_eq in Hg. subst c. reflexivity. }
  cbn [flat_map app]. destruct (c =? LT) eqn:Hl.
  { apply N.eqb_eq in Hl. now subst c. }
  reflexivity.
Qed.

Lemma escape_flat_map s : escape s = flat_map escape_char s.
Proof.
  induction s as [|c s IH]; [reflexivity|].
  rewrite escape_cons, IH, escape_char_escape. reflexivity.
Qed.

Lemma replace_char_removes old new s :
  ~ In old new -> ~ In old (replace_char old new s).
Proof.
  intros Hnew. unfold replace_char. rewrite in_flat_map. intros (c & _ & H).
  destruct (c =? old) eqn:E; [contradiction|].
  destruct H as [H|[]]. subst c. now rewrite N.eqb_refl in E.
Qed.

Lemma replace_char_keeps_out c old new s :
  ~ In c new -> ~ In c s -> ~ In c (replace_char old new s).
Proof.
  intros Hnew Hs. unfold replace_char. rewrite in_flat_map.
  intros (x & Hx & H). destruct (x =? old); [contradiction|].
  destruct H as [H|[]]. now subst x.
Qed.

Lemma not_in_literal (c : codepoint) (l : str) :
  forallb (fun x => negb (x =? c)) l = true -> ~ In c l.
Proof.
  rewrite forallb_forall. intros H Hin. specialize (H c Hin).
  now rewrite N.eqb_refl in H.
Qed.

Lemma escape_no_angle s : ~ In LT (escape s) /\ ~ In GT (escape s).
Proof.
  unfold escape. split.
  - apply replace_char_removes. now apply not_in_literal.
  - apply replace_char_keeps_out; [now apply not_in_literal|].
    apply replace_char_removes. now apply not_in_literal.
Qed.

Lemma stripped_no_angle s :
  ~ In LT (replace_char BACKTICK [] (escape s)) /\
  ~ In GT (replace_char BACKTICK [] (escape s)).
Proof.
  destruct (escape_no_angle s) as [H1 H2].
  split; apply replace_char_keeps_out; auto.
Qed.

Lemma paragraph_texts_app a b :
  paragraph_texts (a ++ b) = paragraph_texts a ++ paragraph_texts b.
Proof. apply flat_map_app. Qed.

(** X11. Whatever the blocks, no [Paragraph] element of the story holds a
    raw angle bracket: every text handed to reportlab as markup went
    through [escape]. *)
Theorem paragraph_markup_safe blocks text :
  In text (paragraph_texts (build_story blocks)) ->
  ~ In LT text /\ ~ In GT text.
Proof.
  induction blocks as [|b blocks IH]; [contradiction|].
  change (b :: blocks) with ([b] ++ blocks).
  rewrite build_story_concat, paragraph_texts_app, in_app_iff.
  intros [H|H]; [|now apply IH]. clear IH.
  unfold build_story in H. cbn [fold_left] in H.
  destruct b as [code| |level t|items|t]; cbn [render_block app] in H.
  - destruct (is_empty code); contradiction.
  - contradiction.
  - destruct H as [<-|[]]. apply escape_no_angle.
  - rewrite items_loop, paragraph_texts_app in H. cbn [app] in H.
    rewrite app_nil_r in H. unfold paragraph_texts in H.
    rewrite flat_map_concat_map, map_map, <- flat_map_concat_map in H.
    apply in_flat_map in H as (item & _ & [<-|[]]).
    destruct (stripped_no_angle item) as [H1 H2]. unfold bullet_text.
    split; intros [E|[E|E]]; try discriminate; auto.
  - destruct H as [<-|[]]. apply stripped_no_angle.
Qed.

Lemma paragraph_markup_safe_witness :
  ~ In LT (U "a &lt; b") /\ ~ In GT (U "a &lt; b").
Proof.
  refine (paragraph_markup_safe [Para (U "a < b")] (U "a &lt; b") _).
  left. reflexivity.
Defined.

(** X12. The story is empty exactly when every block is a code block with
    empty content: any other block gives at least one element. *)
Theorem build_story_empty blocks :
  build_story blocks = [] <-> Forall (fun b => b = Code []) blocks.
Proof.
  induction blocks as [|b blocks IH].
  - split; [constructor|reflexivity].
  - change (b :: blocks) with ([b] ++ blocks). rewrite build_story_concat.
    split.
    + intros H. apply app_eq_nil in H as [Hb H]. constructor; [|now apply IH].
      unfold build_story in Hb. cbn [fold_left] in Hb.
      destruct b as [[|c code]| |level t|items|t]; cbn in Hb;
        try discriminate; try reflexivity.
      rewrite items_loop in Hb. now destruct (map _ items).
    + intros H. inversion H as [|? ? Hb Hrest]; subst.
      apply IH in Hrest. now rewrite Hrest.
Qed.

Lemma backticks_kept s :
  filter (N.eqb BACKTICK) (escape s) = filter (N.eqb BACKTICK) s.
Proof.
  rewrite escape_flat_map. induction s as [|c s IH]; [reflexivity|].
  change (flat_map escape_char (c :: s))
    with (escape_char c ++ flat_map escape_char s).
  rewrite (filter_app (N.eqb BACKTICK) (escape_char c)), IH.
  unfold escape_char.
  destruct (c =? AMP) eqn:Ha; [apply N.eqb_eq in Ha; now subst c|].
  destruct (c =? LT) eqn:Hl; [apply N.eqb_eq in Hl; now subst c|].
  destruct (c =? GT) eqn:Hg; [apply N.eqb_eq in Hg; now subst c|].
  cbn [filter app]. now destruct (BACKTICK =? c).
Qed.

(** X13. A heading block gives one element, between the elements of the
    blocks before it and those of the blocks after it: its text is the
    escaped text of the heading, in which, unlike in a paragraph, the
    backticks stay; its style is that of level 1, of level 2, or, for
    every other level, that of level 3. *)
Theorem heading_element :
  (forall before level text after,
     build_story (before ++ Heading level text :: after)
     = build_story before
       ++ Paragraph (escape text)
            (match level with
             | 1%nat => style_h1
             | 2%nat => style_h2
             | _ => style_h3
             end)
       :: build_story after)
  /\ (forall text,
        filter (N.eqb BACKTICK) (escape text) = filter (N.eqb BACKTICK) text).
Proof.
  split; [|exact backticks_kept].
  intros before level text after. rewrite build_story_block.
  cbn [render_block app]. now destruct level as [|[|[|level]]].
Qed.

(** ** More on [main] *)

(** X14. When [main] returns, its exit code tells what happened: 2 with an
    argument count other than three, 1 with three arguments and an input
    path that the existence test found missing, 0 with three arguments and
    an input path that it found. It returns no other code. *)
Theorem exit_code_tells_cause (W : Type) (P : Platform W)
    (argv : list str) (w w' : W) (code : Z) :
  main argv w = (Ok code, w') ->
  (code = 2%Z /\ length argv <> 3%nat)
  \/ (code = 1%Z /\ length argv = 3%nat
      /\ fst (path_exists (Path (nth 1 argv [])) w) = Ok false)
  \/ (code = 0%Z /\ length argv = 3%nat
      /\ fst (path_exists (Path (nth 1 argv [])) w) = Ok true).
Proof.
  destruct (Nat.eq_dec (length argv) 3) as [Hlen|Hlen].
  - rewrite (main_three _ _ _ _ Hlen).
    destruct (path_exists (Path (nth 1 argv [])) w) as [[[|]|e0] w1];
      cbn [fst]; [| |discriminate].
    + destruct (processing argv w1) as [[[]|e1] w2]; [|discriminate].
      destruct (print _ w2) as [[[]|e3] w3]; [|discriminate].
      intros H. inversion H; subst. auto.
    + destruct (print _ w1) as [[[]|e3] w2]; [|discriminate].
      intros H. inversion H; subst. auto.
  - rewrite (main_usage _ _ _ _ Hlen).
    destruct (print usage_line w) as [[[]|e3] w1]; [|discriminate].
    intros H. inversion H; subst. auto.
Qed.

Lemma exit_code_tells_cause_witness :
  (1%Z = 2%Z /\ length [U "prog"; U "missing.md"; U "out.pdf"] <> 3%nat)
  \/ (1%Z = 1%Z /\ length [U "prog"; U "missing.md"; U "out.pdf"] = 3%nat
      /\ fst (path_exists
                (Path (nth 1 [U "prog"; U "missing.md"; U "out.pdf"] []))
                (World fonts_installed [])) = Ok false)
  \/ (1%Z = 0%Z /\ length [U "prog"; U "missing.md"; U "out.pdf"] = 3%nat
      /\ fst (path_exists
                (Path (nth 1 [U "prog"; U "missing.md"; U "out.pdf"] []))
                (World fonts_installed [])) = Ok true).
Proof.
  exact (exit_code_tells_cause world small_platform
           [U "prog"; U "missing.md"; U "out.pdf"]
           (World fonts_installed [])
           (World fonts_installed [U "Input not found: missing.md"])
           1%Z eq_refl).
Defined.

Lemma silent_bind {W A B : Type} (out : W -> list str)
    (c : M W A) (k : A -> M W B) :
  silent out c -> (forall a, silent out (k a)) -> silent out (bind c k).
Proof.
  intros Hc Hk w. unfold bind. specialize (Hc w).
  destruct (c w) as [[a|e] w1]; cbn [snd] in *; [|exact Hc].
  now rewrite Hk.
Qed.

Lemma silent_build_pdf {W : Type} {P : Platform W} (out : W -> list str)
    input_path output_path :
  StdoutOnly P out -> silent out (build_pdf input_path output_path).
Proof.
  intros Hout. unfold build_pdf, register_fonts. cbv zeta.
  apply silent_bind; [|intros _; apply silent_bind].
  - apply silent_bind; [|intros _; apply silent_bind; [|intros _]];
      intros w; apply (out_font P out Hout).
  - intros w. apply (out_read P out Hout).
  - intros md_text w. apply (out_build P out Hout).
Qed.

Lemma silent_processing {W : Type} {P : Platform W} (out : W -> list str) argv :
  StdoutOnly P out -> silent out (processing argv).
Proof.
  intros Hout. unfold processing.
  apply silent_bind; [|intros _; now apply silent_build_pdf].
  intros w. apply (out_mkdir P out Hout).
Qed.


(** X15. On a platform where a [print] that returns has appended its line
    to the standard output, a [print] that raises has written nothing, and
    nothing else writes to it: when [main] returns, it has printed exactly
    one line, the usage line with the code 2, the line that names the
    missing input with the code 1, the line that names the output with the
    code 0; when an error leaves [main], it has printed nothing. *)
Theorem main_prints_one_line (W : Type) (P : Platform W) (out : W -> list str)
    (argv : list str) (w : W) :
  StdoutOnly P out ->
  match main argv w with
  | (Ok code, w') => out w' = out w ++ [line_of_exit argv code]
  | (Raise _, w') => out w' = out w
  end.
Proof.
  intros Hout. destruct (Nat.eq_dec (length argv) 3) as [Hlen|Hlen].
  - rewrite (main_three _ _ _ _ Hlen).
    pose proof (out_exists P out Hout (Path (nth 1 argv [])) w) as He.
    destruct (path_exists (Path (nth 1 argv [])) w) as [[[|]|e0] w1];
      cbn [snd] in He; [| |exact He].
    + pose proof (silent_processing out argv Hout w1) as Hs.
      destruct (processing argv w1) as [[[]|e1] w2]; cbn [snd] in Hs;
        [|congruence].
      destruct (print _ w2) as [[[]|e3] w3] eqn:Hp.
      * rewrite (out_print P out Hout _ _ _ Hp). cbn. congruence.
      * rewrite (out_print_raise P out Hout _ _ _ _ Hp). congruence.
    + destruct (print _ w1) as [[[]|e3] w2] eqn:Hp.
      * rewrite (out_print P out Hout _ _ _ Hp). cbn. congruence.
      * rewrite (out_print_raise P out Hout _ _ _ _ Hp). congruence.
  - rewrite (main_usage _ _ _ _ Hlen).
    destruct (print usage_line w) as [[[]|e3] w1] eqn:Hp.
    + now rewrite (out_print P out Hout _ _ _ Hp).
    + now rewrite (out_print_raise P out Hout _ _ _ _ Hp).
Qed.

Lemma small_platform_stdout : StdoutOnly small_platform stdout.
Proof.
  split; cbn.
  - intros line w w' H. destruct (existsb is_surrogate line);
      inversion H; reflexivity.
  - intros line w e w' H. destruct (existsb is_surrogate line);
      inversion H; reflexivity.
  - intros p w. now destruct (path_too_long p).
  - intros p w. now destruct (lookup p (fs w)) as [[]|].
  - intros p w. now destruct (lookup p (fs w)) as [[[]|]|].
  - intros name file w. now destruct (lookup (U file) (fs w)) as [[]|].
  - reflexivity.
Qed.

Lemma main_prints_one_line_witness :
  stdout (snd (main sample_argv sample_world))
  = stdout sample_world ++ [U "Generated: out/guide.pdf"].
Proof.
  exact (main_prints_one_line world small_platform stdout sample_argv
           sample_world small_platform_stdout).
Defined.

(** ** [page_number] *)

Lemma to_int_not_nil n :
  Z.to_int n <> Decimal.Pos Decimal.Nil /\ Z.to_int n <> Decimal.Neg Decimal.Nil.
Proof.
  split; intros H;
    assert (E : n = 0%Z)
      by (rewrite <- (DecimalZ.of_to n), H; reflexivity);
    subst n; discriminate H.
Qed.

Lemma U_injective s1 s2 : U s1 = U s2 -> s1 = s2.
Proof.
  unfold U. revert s2. induction s1 as [|a s1 IH]; intros [|b s2] H;
    try discriminate; [reflexivity|].
  cbn in H. inversion H as [[Ha Hs]].
  apply (f_equal ascii_of_N) in Ha. rewrite !ascii_N_embedding in Ha.
  subst b. f_equal. now apply IH.
Qed.

Lemma str_of_int_injective p q : str_of_int p = str_of_int q -> p = q.
Proof.
  unfold str_of_int. intros H. apply U_injective in H.
  apply DecimalZ.to_int_inj.
  destruct (to_int_not_nil p) as [Hp1 Hp2].
  destruct (to_int_not_nil q) as [Hq1 Hq2].
  pose proof (NilZero.isi _ Hp1 Hp2) as Ep.
  pose proof (NilZero.isi _ Hq1 Hq2) as Eq.
  rewrite H in Ep. rewrite Ep in Eq. now inversion Eq.
Qed.

(** X16. The footer tells the page: two pages for which [page_number] does
    the same on the canvas have the same number. *)
Theorem page_number_injective p q : page_number p = page_number q -> p = q.
Proof.
  unfold page_number. intros H. inversion H as [E].
  now apply str_of_int_injective.
Qed.

Lemma page_number_injective_witness : 12%Z = 12%Z.
Proof. exact (page_number_injective 12 12 eq_refl). Defined.

(** ** The rules, one at a time *)

Lemma separator_not_blank l :
  matches re_separator (strip l) = true -> is_blank l = false.
Proof.
  intros H. apply matches_separator_inv in H as (s & H).
  unfold is_blank. now rewrite H.
Qed.

Lemma separator_not_fence l :
  matches re_separator (strip l) = true -> is_fence l = false.
Proof.
  intros H. apply matches_separator_inv in H as (s & H).
  unfold is_fence. now rewrite H.
Qed.

(** X17. The five tests of the main loop (blank line, fence line, separator,
    heading, list item) do not overlap: at most one of them holds of a
    line, so the order in which the loop makes them decides nothing. *)
Theorem rules_do_not_overlap line :
  (length (filter (fun b : bool => b)
     [is_blank line; is_fence line; matches re_separator (strip line);
      matches re_heading line; is_item line]) <= 1)%nat.
Proof.
  destruct (is_item line) eqn:Hi.
  { rewrite (item_not_fence line Hi), (item_not_separator line Hi).
    unfold is_blank, matches at 1.
    rewrite (item_not_blank line Hi), (item_not_heading line Hi).
    simpl. lia. }
  destruct (matches re_heading line) eqn:Hh.
  { apply heading_matches_start in Hh. unfold is_blank.
    rewrite (heading_not_fence line Hh), (heading_not_blank line Hh),
      (heading_not_separator line Hh). simpl. lia. }
  destruct (matches re_separator (strip line)) eqn:Hs.
  { rewrite (separator_not_blank line Hs), (separator_not_fence line Hs).
    simpl. lia. }
  destruct (is_blank line) eqn:Hb.
  { rewrite (blank_not_fence line Hb). simpl. lia. }
  destruct (is_fence line); simpl; lia.
Qed.

Lemma dropwhile_split p s :
  exists pre, s = pre ++ dropwhile p s /\ forallb p pre = true.
Proof.
  induction s as [|c s (pre & E & Hp)]; [now exists []|].
  simpl. destruct (p c) eqn:Hc; [|now exists []].
  exists (c :: pre). simpl. rewrite Hc, Hp. split; [now f_equal|reflexivity].
Qed.

Lemma dropwhile_all p pre s :
  forallb p pre = true -> dropwhile p (pre ++ s) = dropwhile p s.
Proof.
  induction pre as [|c pre IH]; [reflexivity|]. simpl.
  intros H. apply andb_prop in H as [-> H]. auto.
Qed.

Lemma marker_end_shape s r :
  marker_end s = Some r -> exists marker, list_marker marker /\ s = marker ++ r.
Proof.
  unfold marker_end. destruct s as [|c s]; [discriminate|].
  destruct (oneof [HYPHEN; STAR] c) eqn:Hb.
  - intros H. inversion H; subst.
    unfold oneof in Hb. simpl in Hb. rewrite orb_false_r in Hb.
    apply orb_prop in Hb as [Hb|Hb]; apply N.eqb_eq in Hb; subst c;
      eexists; (split; [constructor|reflexivity]).
  - destruct (isdecimal c) eqn:Hd; [|discriminate].
    destruct (dropwhile_split isdecimal s) as (pre & E & Hp).
    destruct (dropwhile isdecimal s) as [|d s']; [discriminate|].
    destruct (d =? DOT) eqn:Hdot; [|discriminate].
    apply N.eqb_eq in Hdot. subst d. intros H. inversion H; subst r.
    exists ((c :: pre) ++ [DOT]). split.
    + constructor; [discriminate|]. simpl. now rewrite Hd, Hp.
    + rewrite E. now rewrite <- !app_assoc.
Qed.

Lemma list_marker_end marker w r :
  list_marker marker -> isspace w = true ->
  marker_end (marker ++ w :: r) = Some (w :: r) /\
  exists c m, marker = c :: m /\ isspace c = false.
Proof.
  intros Hm Hw. destruct Hm as [| |digits Hne Hd].
  - split; [reflexivity|]. now exists HYPHEN, [].
  - split; [reflexivity|]. now exists STAR, [].
  - destruct digits as [|c digits]; [congruence|].
    simpl in Hd. apply andb_prop in Hd as [Hc Hd].
    assert (Hsp : isspace c = false).
    { destruct (isspace c) eqn:E; [|reflexivity].
      apply space_not_decimal in E. congruence. }
    split; [|now exists c, (digits ++ [DOT])].
    unfold marker_end. cbn [app].
    assert (Hb : oneof [HYPHEN; STAR] c = false).
    { destruct (oneof [HYPHEN; STAR] c) eqn:E; [|reflexivity].
      apply bullet_not_decimal in E. congruence. }
    rewrite Hb, Hc, <- app_assoc, (dropwhile_all isdecimal digits) by exact Hd.
    reflexivity.
Qed.

(** X18. The list-item test succeeds exactly for the lines made of an
    indentation of white space, possibly empty, a marker (a hyphen, a
    star, or decimal digits and a dot), and at least one white-space
    character; the text of the item is then what follows that white
    space, with trailing white space trimmed. *)
Theorem item_test_exact line :
  (is_item line = true <->
   exists indent marker w rest,
     line = indent ++ marker ++ w :: rest /\
     forallb isspace indent = true /\ list_marker marker /\ isspace w = true)
  /\ (forall indent marker w rest,
        line = indent ++ marker ++ w :: rest ->
        forallb isspace indent = true -> list_marker marker ->
        isspace w = true ->
        item_text line = strip rest).
Proof.
  assert (Hbody : forall indent marker w rest,
    line = indent ++ marker ++ w :: rest ->
    forallb isspace indent = true -> list_marker marker -> isspace w = true ->
    item_body line = Some (lstrip rest)).
  { intros indent marker w rest -> Hi Hm Hw.
    destruct (list_marker_end marker w rest Hm Hw) as (He & c & m & -> & Hc).
    unfold item_body, lstrip. rewrite (dropwhile_all isspace indent) by exact Hi.
    cbn [app dropwhile]. rewrite Hc. cbn [app] in He. rewrite He.
    now rewrite Hw. }
  split; [split|].
  - unfold is_item. rewrite matches_item. unfold item_body.
    destruct (marker_end (lstrip line)) as [[|w s]|] eqn:E; try discriminate.
    destruct (isspace w) eqn:Hw; [|discriminate]. intros _.
    apply marker_end_shape in E as (marker & Hm & E).
    destruct (dropwhile_split isspace line) as (indent & El & Hi).
    fold (lstrip line) in El. rewrite E in El.
    now exists indent, marker, w, s.
  - intros (indent & marker & w & rest & E & Hi & Hm & Hw).
    unfold is_item. rewrite matches_item.
    now rewrite (Hbody indent marker w rest E Hi Hm Hw).
  - intros indent marker w rest E Hi Hm Hw.
    rewrite (item_text_body line _ (Hbody indent marker w rest E Hi Hm Hw)).
    reflexivity.
Qed.

Lemma item_test_exact_witness :
  item_text (U "   12.  buy milk  ") = strip (U " buy milk  ").
Proof.
  refine (proj2 (item_test_exact (U "   12.  buy milk  "))
            (U "   ") (U "12.") SPACE (U " buy milk  ") eq_refl eq_refl _ eq_refl).
  apply (marker_number (U "12")); [discriminate|reflexivity].
Defined.
